(** * string_utils: a shallow embedding of [string_utils.h] and its properties

    The header is a small library of byte-oriented string helpers built on
    [std::string_view].  Byte sequences are [list byte]; [std::size_t] values
    are integers in [0, 2^64) with the wrap-around of unsigned arithmetic
    written out ([wrap]); loops run on fuel, so that "the call returns" is a
    statement of its own; a call ends in a value, in an exception or in a
    fault of the abstract machine ([outcome]). *)

From Stdlib Require Import ZArith List Lia Bool.
From Stdlib.Strings Require Import Byte.
From Stdlib.Strings Require String.
Import String.StringSyntax.
Delimit Scope string_scope with string.
Import ListNotations.
Open Scope Z_scope.

(** ** Machine integers *)

Module SizeT.

Definition modulus : Z := 2 ^ 64.

(** [std::string_view::npos], the largest [size_t]. *)
Definition npos : Z := modulus - 1.

(** Unsigned arithmetic is arithmetic modulo [2^64]. *)
Definition wrap (z : Z) : Z := z mod modulus.

End SizeT.
Import SizeT.

(** ** Outcomes of a call *)

Inductive fault : Type :=
| out_of_range   (* std::out_of_range, thrown by substr *)
| out_of_bounds. (* an access outside the object: undefined behaviour *)

Inductive outcome (A : Type) : Type :=
| Done (a : A)
| Raise (e : fault)
| OutOfFuel.
Arguments Done {A} a.
Arguments Raise {A} e.
Arguments OutOfFuel {A}.

Definition bind {A B : Type} (c : outcome A) (k : A -> outcome B) : outcome B :=
  match c with
  | Done a => k a
  | Raise e => Raise e
  | OutOfFuel => OutOfFuel
  end.

Notation "x <- c ;; k" := (bind c (fun x => k))
  (at level 61, c at next level, right associativity).
Notation "' p <- c ;; k" := (bind c (fun x => let 'p := x in k))
  (at level 61, p pattern, c at next level, right associativity).

Definition omap {A B : Type} (f : A -> B) (c : outcome A) : outcome B :=
  x <- c ;; Done (f x).

(** [while (cond) body]: the condition may itself advance the state (as
    [compare]'s does); each evaluation of the condition costs one unit of
    fuel. *)
Fixpoint while {St : Type} (fuel : nat) (cond : St -> outcome (bool * St))
    (body : St -> outcome St) (s : St) : outcome St :=
  match fuel with
  | O => OutOfFuel
  | S fuel' =>
      '(c, s1) <- cond s ;;
      if c then s2 <- body s1 ;; while fuel' cond body s2 else Done s1
  end.

(** A condition without side effects. *)
Definition when {St : Type} (c : St -> bool) (s : St) : outcome (bool * St) :=
  Done (c s, s).

(** A range-based [for] over a vector. *)
Fixpoint for_each {St A : Type} (xs : list A) (body : St -> A -> outcome St)
    (s : St) : outcome St :=
  match xs with
  | [] => Done s
  | x :: xs' => s1 <- body s x ;; for_each xs' body s1
  end.

(** ** Byte sequences and views *)

Definition size (s : list byte) : Z := Z.of_nat (length s).

(** The bytes [pos, pos + len) of [s]. *)
Definition slice (s : list byte) (pos len : Z) : list byte :=
  firstn (Z.to_nat len) (skipn (Z.to_nat pos) s).

(** A [std::string_view] obtained from the subject: a window into the
    subject's bytes, or the default-constructed view [{}]. *)
Inductive view : Type :=
| View (pos len : Z)
| Null.

Definition text (sv : list byte) (v : view) : list byte :=
  match v with
  | View pos len => slice sv pos len
  | Null => []
  end.

(** [sv.substr(pos, n)]: throws when [pos > size()], else the window of
    length [min(n, size() - pos)] at [pos]. *)
Definition substr (sv : list byte) (pos n : Z) : outcome view :=
  if size sv <? pos then Raise out_of_range
  else Done (View pos (Z.min n (size sv - pos))).

(** [token] is a prefix of [s]. *)
Fixpoint is_prefix (token s : list byte) : bool :=
  match token, s with
  | [], _ => true
  | _ :: _, [] => false
  | c :: token', d :: s' => Byte.eqb c d && is_prefix token' s'
  end.

(** Offset of the first occurrence of [token] in [s]. *)
Fixpoint first_occurrence (token s : list byte) : option nat :=
  if is_prefix token s then Some O
  else match s with
       | [] => None
       | _ :: s' => option_map S (first_occurrence token s')
       end.

(** [sv.find(token, pos)] of the standard library: the least [i >= pos] with
    [sv[i, i + token.size()) == token], or [npos].  For an empty token that
    is [pos] itself as long as [pos <= size()]. *)
Definition find (sv token : list byte) (pos : Z) : Z :=
  if size sv <? pos then npos
  else match first_occurrence token (skipn (Z.to_nat pos) sv) with
       | Some k => pos + Z.of_nat k
       | None => npos
       end.

(** ** Iterators

    [compare] walks two ranges through iterators.  What a dereference finds
    is decided by the memory the range lies in: inside the range it is the
    range's byte; outside the range it is whatever the surroundings hold
    ([Some c]), or nothing that may be read ([None], the access faults). *)

Definition memory : Type := Z -> option byte.

(** Nothing readable outside a range: indexing that returns an option. *)
Definition bare : memory := fun _ => None.

(** The byte at offset [k] can be read. *)
Definition readable (m : memory) (k : Z) : Prop := m k <> None.

Definition in_range (s : list byte) (k : Z) : bool := (0 <=? k) && (k <? size s).

(** The memory holding [s] at offsets [0 .. size s - 1]. *)
Definition holding (around : memory) (s : list byte) : memory :=
  fun k => if in_range s k then nth_error s (Z.to_nat k) else around k.

Record pointer : Type := Ptr { block : memory; offset : Z }.

(** [std::reverse_iterator]: dereferences the element before [current]. *)
Inductive reverse_iterator : Type := Rev (current : pointer).

Class Iterator (I : Type) : Type := {
  deref : I -> outcome byte;
  incr : I -> I;
  same : I -> I -> bool
}.

Definition load (m : memory) (k : Z) : outcome byte :=
  match m k with
  | Some c => Done c
  | None => Raise out_of_bounds
  end.

#[export] Instance Iterator_pointer : Iterator pointer := {
  deref p := load (block p) (offset p);
  incr p := Ptr (block p) (offset p + 1);
  same p q := offset p =? offset q
}.

#[export] Instance Iterator_reverse : Iterator reverse_iterator := {
  deref r := let 'Rev p := r in load (block p) (offset p - 1);
  incr r := let 'Rev p := r in Rev (Ptr (block p) (offset p - 1));
  same r q := let 'Rev p := r in let 'Rev p' := q in offset p =? offset p'
}.

Section Ranges.
Variable around : memory.
Variable s : list byte.

Definition begin : pointer := Ptr (holding around s) 0.
Definition end_ : pointer := Ptr (holding around s) (size s).
Definition rbegin : reverse_iterator := Rev end_.
Definition rend : reverse_iterator := Rev begin.
End Ranges.

(** ** namespace detail: [compare] and the two split templates

    The template parameter [T] is what [emplace_back] builds from the view
    [sv.substr(..)]: the view itself ([std::string_view]) or a copy of its
    bytes ([std::string]). *)

Class Part (T : Type) : Type := emplace : list byte -> view -> T.

#[export] Instance Part_string_view : Part view := fun _ v => v.
#[export] Instance Part_string : Part (list byte) := fun sv v => text sv v.

(** [*it = c] at offset [k] of the buffer [s]. *)
Definition assign (s : list byte) (k : Z) (c : byte) : list byte :=
  firstn (Z.to_nat k) s ++ c :: skipn (Z.to_nat k + 1) s.

Module detail.

(** Body of the loop of [transform]: the state is the string the iterators
    point into and [start], an offset into it; a dereference outside the
    string faults. *)
Definition transform_step (func : byte -> byte)
  : list byte * Z -> outcome (list byte * Z) :=
  fun '(s, start) =>
    c <- load (holding bare s) start ;;
    let s := assign s start (func c) in
    let start := start + 1 in
    Done (s, start).

(** [transform(start, stop, func)] over the string [s]; the result is the
    string the call leaves behind. *)
Definition transform (fuel : nat) (s : list byte) (start stop : Z)
    (func : byte -> byte) : outcome (list byte) :=
  '(s, _) <-
    while fuel (when (fun '(_, start) => negb (start =? stop)))
      (transform_step func) (s, start) ;;
  Done s.

(** [while (b != last && *(++a) == *(++b));] has an empty body: the
    condition moves both iterators and reads through them. *)
Definition advance {I : Type} `{Iterator I} (last : I)
  : I * I -> outcome (bool * (I * I)) :=
  fun '(a, b) =>
    if negb (same b last) then
      let a := incr a in
      let b := incr b in
      x <- deref a ;;
      y <- deref b ;;
      Done (Byte.eqb x y, (a, b))
    else Done (false, (a, b)).

Definition compare {I : Type} `{Iterator I} (fuel : nat) (a b last : I)
  : outcome bool :=
  x <- deref a ;;
  y <- deref b ;;
  if negb (Byte.eqb x y) then Done false
  else
    '(_, b) <- while fuel (advance last) (fun st => Done st) (a, b) ;;
    if same b last then Done true else Done false.

Section Split.
Context {T : Type} `{Part T}.

(** Loop state: [start], [i] and [parts]. *)
Definition split_state : Type := Z * Z * list T.

Definition found : split_state -> bool :=
  fun '(_, i, _) => negb (i =? npos).

(** Body of the loop of [split_keep_empty]. *)
Definition keep_step (sv token : list byte) : split_state -> outcome split_state :=
  fun '(start, i, parts) =>
    p <- substr sv start (wrap (i - start)) ;;
    let parts := parts ++ [emplace sv p] in
    let start := wrap (i + size token) in
    let i := find sv token start in
    Done (start, i, parts).

Definition split_keep_empty (fuel : nat) (sv token : list byte)
  : outcome (list T) :=
  let start := 0 in
  let i := find sv token 0 in
  '(start, _, parts) <-
    while fuel (when found) (keep_step sv token) (start, i, []) ;;
  p <- substr sv start npos ;;
  Done (parts ++ [emplace sv p]).

(** Body of the loop of [split_ignore_empty]. *)
Definition ignore_step (sv token : list byte) : split_state -> outcome split_state :=
  fun '(start, i, parts) =>
    let len := wrap (i - start) in
    parts <- (if 0 <? len
              then p <- substr sv start len ;; Done (parts ++ [emplace sv p])
              else Done parts) ;;
    let start := wrap (i + size token) in
    let i := find sv token start in
    Done (start, i, parts).

Definition split_ignore_empty (fuel : nat) (sv token : list byte)
  : outcome (list T) :=
  let start := 0 in
  let i := find sv token 0 in
  '(start, _, parts) <-
    while fuel (when found) (ignore_step sv token) (start, i, []) ;;
  if 0 <? wrap (size sv - start)
  then p <- substr sv start npos ;; Done (parts ++ [emplace sv p])
  else Done parts.

End Split.

End detail.

(** ** namespace ascii *)

Module ascii.

(** Body of the loop; [i += character_count + skip] is unsigned. *)
Definition chunk_step (sv : list byte) (character_count skip : Z)
  : Z * list view -> outcome (Z * list view) :=
  fun '(i, v) =>
    p <- substr sv i character_count ;;
    let v := v ++ [p] in
    let i := wrap (i + wrap (character_count + skip)) in
    Done (i, v).

Definition split (fuel : nat) (sv : list byte) (character_count skip : Z)
  : outcome (list view) :=
  if character_count =? 0 then Done []
  else
    let size := size sv in
    '(_, v) <-
      while fuel (when (fun '(i, _) => i <? size))
        (chunk_step sv character_count skip) (0, []) ;;
    Done v.

Section CaseMapping.
(** [::toupper] and [::tolower] of the C library, as they act on a [char]
    that is passed in and stored back: the tables belong to the process
    locale, not to this header. *)
Variables toupper tolower : byte -> byte.

Definition to_upper (fuel : nat) (s : list byte) : outcome (list byte) :=
  detail.transform fuel s 0 (size s) toupper.

Definition to_lower (fuel : nat) (s : list byte) : outcome (list byte) :=
  detail.transform fuel s 0 (size s) tolower.

(** [for (auto c : sv) s += ::toupper(c);] *)
Definition as_upper (sv : list byte) : outcome (list byte) :=
  for_each sv (fun s c => Done (s ++ [toupper c])) [].

Definition as_lower (sv : list byte) : outcome (list byte) :=
  for_each sv (fun s c => Done (s ++ [tolower c])) [].
End CaseMapping.

End ascii.

(** ** namespace string_utils *)

Definition empty (s : list byte) : bool := size s =? 0.

Section Comparator.
(** What lies around the subject and around the test in memory. *)
Variables around_sv around_test : memory.

Definition starts_with (fuel : nat) (sv test : list byte) : outcome bool :=
  if empty sv || empty test || (size sv <? size test) then Done false
  else detail.compare fuel
         (begin around_sv sv) (begin around_test test) (end_ around_test test).

Definition ends_with (fuel : nat) (sv test : list byte) : outcome bool :=
  if empty sv || empty test || (size sv <? size test) then Done false
  else detail.compare fuel
         (rbegin around_sv sv) (rbegin around_test test) (rend around_test test).
End Comparator.

Definition split (fuel : nat) (sv token : list byte) (keep_empty_parts : bool)
  : outcome (list view) :=
  if keep_empty_parts then detail.split_keep_empty fuel sv token
  else detail.split_ignore_empty fuel sv token.

Definition split_copy (fuel : nat) (sv token : list byte) (keep_empty_parts : bool)
  : outcome (list (list byte)) :=
  if keep_empty_parts then detail.split_keep_empty fuel sv token
  else detail.split_ignore_empty fuel sv token.

Definition split_first (sv token : list byte) : outcome (view * view) :=
  let i := find sv token 0 in
  if negb (i =? npos) then
    a <- substr sv 0 i ;;
    b <- substr sv (wrap (i + size token)) npos ;;
    Done (a, b)
  else Done (View 0 (size sv), Null).

Definition split_first_copy (sv token : list byte)
  : outcome (list byte * list byte) :=
  let i := find sv token 0 in
  if negb (i =? npos) then
    a <- substr sv 0 i ;;
    b <- substr sv (wrap (i + size token)) npos ;;
    Done (text sv a, text sv b)
  else Done (sv, []).

(** [result.resize(n)] on a fresh string: [n] zero bytes. *)
Definition resize (n : Z) : list byte := repeat x00 (Z.to_nat n).

(** The buffer [dst] with the bytes [src] written from offset [at_] on. *)
Definition store (dst : list byte) (at_ : Z) (src : list byte) : list byte :=
  firstn (Z.to_nat at_) dst ++ src ++ skipn (Z.to_nat (at_ + size src)) dst.

(** [std::copy(first, last, d_first)] from [src] into the buffer [dst];
    returns the buffer and the iterator past the last byte written.  Leaving
    either range is undefined behaviour. *)
Definition copy (src : list byte) (first last : Z) (dst : list byte) (d_first : Z)
  : outcome (list byte * Z) :=
  let d_last := d_first + (last - first) in
  if (0 <=? first) && (first <=? last) && (last <=? size src)
     && (0 <=? d_first) && (d_last <=? size dst)
  then Done (store dst d_first (slice src first (last - first)), d_last)
  else Raise out_of_bounds.

(** Body of the pre-scan loop. *)
Definition scan_step (sv search_token : list byte)
  : Z * list Z -> outcome (Z * list Z) :=
  fun '(pos, positions) =>
    let positions := positions ++ [pos] in
    let pos := find sv search_token (wrap (pos + size search_token)) in
    Done (pos, positions).

Definition replace_scan (fuel : nat) (sv search_token : list byte)
  : outcome (list Z) :=
  '(_, positions) <-
    while fuel (when (fun '(pos, _) => negb (pos =? npos)))
      (scan_step sv search_token) (find sv search_token 0, []) ;;
  Done positions.

(** The argument of [result.resize], in unsigned arithmetic. *)
Definition replace_size (sv search_token replace_token : list byte) (n : Z) : Z :=
  wrap (wrap (size sv - wrap (size search_token * n)) + wrap (size replace_token * n)).

(** Body of the loop over the positions: state [result], [result_it]
    and [source_it] (offsets into [result] and [sv]). *)
Definition fill_step (sv search_token replace_token : list byte)
  : list byte * Z * Z -> Z -> outcome (list byte * Z * Z) :=
  fun '(result, result_it, source_it) p =>
    '(result, result_it) <- copy sv source_it p result result_it ;;
    '(result, result_it) <-
      copy replace_token 0 (size replace_token) result result_it ;;
    let source_it := p + size search_token in
    Done (result, result_it, source_it).

Definition replace_fill (sv search_token replace_token : list byte)
    (positions : list Z) (result : list byte) : outcome (list byte) :=
  '(result, result_it, source_it) <-
    for_each positions (fill_step sv search_token replace_token) (result, 0, 0) ;;
  if negb (result_it =? size result) then
    '(result, _) <- copy sv source_it (size sv) result result_it ;;
    Done result
  else Done result.

Definition replace (fuel : nat) (sv search_token replace_token : list byte)
  : outcome (list byte) :=
  positions <- replace_scan fuel sv search_token ;;
  match positions with
  | [] => Done sv
  | _ :: _ =>
      let n := Z.of_nat (length positions) in
      let result := resize (replace_size sv search_token replace_token n) in
      replace_fill sv search_token replace_token positions result
  end.

Definition str (s : String.string) : list byte := String.list_byte_of_string s.
Arguments str s%_string.

(** ** Vocabulary of the specification *)

(** [token] occurs in [s]. *)
Definition occurs_in (token s : list byte) : Prop :=
  exists l r, s = l ++ token ++ r.

(** Number of non-overlapping occurrences of [token] met by a left-to-right
    scan of [s]: a match is counted and the scan resumes after its last
    byte; [skip] is the number of bytes of the current match still to pass. *)
Fixpoint count_scan (token s : list byte) (skip : nat) : nat :=
  match s with
  | [] => O
  | _ :: s' =>
      match skip with
      | S k => count_scan token s' k
      | O => if is_prefix token s
             then S (count_scan token s' (length token - 1))
             else count_scan token s' 0
      end
  end.

Definition count_nonoverlapping_occurrences (s token : list byte) : nat :=
  count_scan token s 0.

(** part_0, T, part_1, T, ..., part_k. *)
Fixpoint join (sep : list byte) (parts : list (list byte)) : list byte :=
  match parts with
  | [] => []
  | [p] => p
  | p :: rest => p ++ sep ++ join sep rest
  end.

(** The spans [qs], each followed by [sep], then the tail [last]. *)
Fixpoint weave (sep : list byte) (qs : list (list byte)) (last : list byte)
  : list byte :=
  match qs with
  | [] => last
  | q :: qs' => q ++ sep ++ weave sep qs' last
  end.

(** The scan of [s] for [token]: the spans before each match, left to
    right, and the tail after the last match. *)
Inductive pieces (token : list byte)
  : list byte -> list (list byte) -> list byte -> Prop :=
| pieces_tail s :
    first_occurrence token s = None -> pieces token s [] s
| pieces_more s k qs last :
    first_occurrence token s = Some k ->
    pieces token (skipn (k + length token) s) qs last ->
    pieces token s (firstn k s :: qs) last.

(** Windows of the spans [qs], laid out from [start] with a token between
    neighbours. *)
Fixpoint layout (token_size start : Z) (qs : list (list byte)) : list view :=
  match qs with
  | [] => []
  | q :: qs' =>
      View start (size q) :: layout token_size (start + size q + token_size) qs'
  end.

(** Where the layout of [qs] ends. *)
Definition layout_end (token_size start : Z) (qs : list (list byte)) : Z :=
  fold_left (fun at_ q => at_ + size q + token_size) qs start.

(** Offsets of the matches that follow the spans [qs]. *)
Fixpoint marks (token_size start : Z) (qs : list (list byte)) : list Z :=
  match qs with
  | [] => []
  | q :: qs' =>
      (start + size q) :: marks token_size (start + size q + token_size) qs'
  end.

(** Views in document order: each starts at or after the end of the one
    before it. *)
Fixpoint in_document_order (from : Z) (vs : list view) : Prop :=
  match vs with
  | [] => True
  | View pos len :: vs' =>
      from <= pos /\ 0 <= len /\ in_document_order (pos + len) vs'
  | Null :: _ => False
  end.

(** The [k]-th fixed-width chunk of a subject of [size] bytes: up to
    [character_count] bytes from the cursor [k * step]. *)
Definition chunk_at (character_count step size : Z) (k : nat) : view :=
  View (Z.of_nat k * step) (Z.min character_count (size - Z.of_nat k * step)).

(** A part that is not the empty string. *)
Definition nonempty (p : list byte) : Prop := p <> [].

(** A split loop that makes no progress: cursor and match both at 0. *)
Definition stuck {T : Type} : @detail.split_state T -> Prop :=
  fun '(start, i, _) => start = 0 /\ i = 0.

(** A view that lies inside a subject of [size sv] bytes. *)
Definition inside (sv : list byte) (v : view) : Prop :=
  match v with
  | View pos len => 0 <= pos /\ 0 <= len /\ pos + len <= size sv
  | Null => True
  end.

(** The tables of the "C" locale, one instance of the case-mapping
    collaborator: the letters [a]-[z] and [A]-[Z] map to each other, every
    other byte to itself. *)
Definition c_toupper (c : byte) : byte :=
  let n := Byte.to_N c in
  if ((97 <=? n) && (n <=? 122))%N
  then match Byte.of_N (n - 32) with Some u => u | None => c end
  else c.

Definition c_tolower (c : byte) : byte :=
  let n := Byte.to_N c in
  if ((65 <=? n) && (n <=? 90))%N
  then match Byte.of_N (n + 32) with Some u => u | None => c end
  else c.

(** Invariant of both split loops on views: the cursor is in the subject,
    [i] is what [find] returned for it, the views so far are inside. *)
Definition split_inv (sv token : list byte) : @detail.split_state view -> Prop :=
  fun '(start, i, parts) =>
    0 <= start <= size sv /\ i = find sv token start /\ Forall (inside sv) parts.

(** Offsets in increasing order, each at least [gap] after the one before
    it and none before [from]. *)
Fixpoint apart (gap from : Z) (ps : list Z) : Prop :=
  match ps with
  | [] => True
  | p :: ps' => from <= p /\ apart gap (p + gap) ps'
  end.

(** The windows the ignore-empty policy keeps. *)
Definition kept (v : view) : bool :=
  match v with
  | View _ len => 0 <? len
  | Null => false
  end.

(** * Properties *)

(** ** Loops *)

(** Partial correctness: an invariant kept by the body holds at the exit. *)
Lemma while_partial {St : Type} (Inv Post : St -> Prop) cond body :
  (forall s s1 s2, Inv s -> cond s = Done (true, s1) -> body s1 = Done s2 -> Inv s2) ->
  (forall s s1, Inv s -> cond s = Done (false, s1) -> Post s1) ->
  forall fuel s s', Inv s -> while fuel cond body s = Done s' -> Post s'.
Proof.
  intros Hb He; induction fuel as [|fuel IH]; intros s s' Hi; simpl; [discriminate|].
  destruct (cond s) as [[[|] s1]| |] eqn:C; simpl; try discriminate.
  - destruct (body s1) as [s2| |] eqn:B; simpl; try discriminate.
    apply IH; eapply Hb; eauto.
  - intros [= <-]; eapply He; eauto.
Qed.

(** Divergence: while the invariant holds the condition holds and the body
    keeps the invariant, so no amount of fuel is enough. *)
Lemma while_diverges {St : Type} (Inv : St -> Prop) cond body :
  (forall s, Inv s ->
     exists s1 s2, cond s = Done (true, s1) /\ body s1 = Done s2 /\ Inv s2) ->
  forall fuel s, Inv s -> while fuel cond body s = OutOfFuel.
Proof.
  intros Hd; induction fuel as [|fuel IH]; intros s Hi; simpl; [reflexivity|].
  destruct (Hd s Hi) as (s1 & s2 & -> & B & Hi2); simpl; rewrite B; simpl; auto.
Qed.

(** Two loops whose states are related by [f] run in lockstep. *)
Lemma while_map {St St' : Type} (f : St -> St') cond body cond' body' :
  (forall s, cond' (f s) = omap (fun '(c, s1) => (c, f s1)) (cond s)) ->
  (forall s, body' (f s) = omap f (body s)) ->
  forall fuel s, while fuel cond' body' (f s) = omap f (while fuel cond body s).
Proof.
  intros Hc Hb; induction fuel as [|fuel IH]; intros s; simpl; [reflexivity|].
  rewrite Hc; destruct (cond s) as [[[|] s1]| |]; simpl; try reflexivity.
  rewrite Hb; destruct (body s1) as [s2| |]; simpl; try reflexivity.
  apply IH.
Qed.

(** ** Arithmetic and lists *)

Lemma size_nonneg s : 0 <= size s.
Proof. unfold size; lia. Qed.

Lemma size_app s t : size (s ++ t) = size s + size t.
Proof. unfold size; rewrite length_app; lia. Qed.

Lemma size_nil_iff s : size s = 0 <-> s = [].
Proof.
  unfold size; split; intro E.
  - destruct s; [reflexivity | simpl in E; lia].
  - now subst.
Qed.

Lemma size_skipn s k : 0 <= k <= size s -> size (skipn (Z.to_nat k) s) = size s - k.
Proof. unfold size; intros; rewrite length_skipn; lia. Qed.

Lemma wrap_small z : 0 <= z < modulus -> wrap z = z.
Proof. intros; unfold wrap; now apply Z.mod_small. Qed.

Lemma wrap_range z : 0 <= wrap z < modulus.
Proof. unfold wrap; apply Z.mod_pos_bound; reflexivity. Qed.

Lemma modulus_eq : modulus = npos + 1.
Proof. reflexivity. Qed.

Lemma skipn_skipn_add {A} (a b : nat) (l : list A) :
  skipn a (skipn b l) = skipn (b + a) l.
Proof.
  revert l; induction b as [|b IH]; intros l; simpl; [reflexivity|].
  destruct l; [now rewrite skipn_nil | apply IH].
Qed.

(** ** The scanning primitive *)

Lemma is_prefix_iff token s :
  is_prefix token s = true <-> exists r, s = token ++ r.
Proof.
  revert s; induction token as [|c token IH]; intros s; simpl.
  - split; [exists s; reflexivity | reflexivity].
  - destruct s as [|d s]; [split; [discriminate | intros [r E]; discriminate]|].
    rewrite andb_true_iff, IH; split.
    + intros [E [r ->]]; apply byte_dec_bl in E; subst; now exists r.
    + intros [r E]; injection E as -> ->; split; [now apply byte_dec_lb | now exists r].
Qed.

Lemma is_prefix_app token r : is_prefix token (token ++ r) = true.
Proof. apply is_prefix_iff; now exists r. Qed.

Lemma first_occurrence_split token s k :
  first_occurrence token s = Some k ->
  s = firstn k s ++ token ++ skipn (k + length token) s.
Proof.
  revert k; induction s as [|c s IH]; intros k; simpl.
  - destruct (is_prefix token []) eqn:P; [|discriminate].
    intros [= <-]; apply is_prefix_iff in P as [r E]; simpl.
    destruct token; [reflexivity | discriminate].
  - destruct (is_prefix token (c :: s)) eqn:P.
    + intros [= <-]; apply is_prefix_iff in P as [r E]; simpl firstn; simpl app at 1.
      rewrite E at 1; f_equal; rewrite E.
      now rewrite skipn_app, skipn_all, Nat.sub_diag.
    + destruct (first_occurrence token s) as [k'|] eqn:F; [|discriminate].
      intros [= <-]; simpl; f_equal; now apply IH.
Qed.

Lemma first_occurrence_least token s k l r :
  first_occurrence token s = Some k -> s = l ++ token ++ r -> (k <= length l)%nat.
Proof.
  revert k l; induction s as [|c s IH]; intros k l; simpl.
  - destruct (is_prefix token []); [intros [= <-]; lia | discriminate].
  - destruct (is_prefix token (c :: s)) eqn:P; [intros [= <-]; lia|].
    destruct (first_occurrence token s) as [k'|] eqn:F; [|discriminate].
    intros [= <-] E; destruct l as [|d l].
    + simpl in E; rewrite E, is_prefix_app in P; discriminate.
    + injection E as _ E; simpl; apply le_n_S; now apply IH.
Qed.

Lemma first_occurrence_none token s :
  first_occurrence token s = None -> ~ occurs_in token s.
Proof.
  induction s as [|c s IH]; simpl.
  - destruct (is_prefix token []) eqn:P; [discriminate|].
    intros _ (l & r & E); destruct l, token; try discriminate.
  - destruct (is_prefix token (c :: s)) eqn:P; [discriminate|].
    destruct (first_occurrence token s) as [k'|] eqn:F; [discriminate|].
    intros _ (l & r & E); destruct l as [|d l].
    + simpl in E; rewrite E, is_prefix_app in P; discriminate.
    + injection E as _ E; apply IH; [reflexivity | now exists l, r].
Qed.

Lemma first_occurrence_bound token s k :
  first_occurrence token s = Some k -> (k + length token <= length s)%nat.
Proof.
  revert k; induction s as [|c s IH]; intros k; simpl.
  - destruct (is_prefix token []) eqn:P; [|discriminate].
    intros [= <-]; destruct token; [simpl; lia | discriminate].
  - destruct (is_prefix token (c :: s)) eqn:P.
    + intros [= <-]; apply is_prefix_iff in P as [r E].
      apply (f_equal (@length byte)) in E; rewrite length_app in E; simpl in *; lia.
    + destruct (first_occurrence token s) as [k'|] eqn:F; [|discriminate].
      intros [= <-]; specialize (IH _ eq_refl); simpl; lia.
Qed.

Lemma first_occurrence_span token s k :
  first_occurrence token s = Some k -> token <> [] -> ~ occurs_in token (firstn k s).
Proof.
  intros F Ht (l & r & E).
  pose proof (first_occurrence_split _ _ _ F) as D.
  rewrite E in D; rewrite <- !app_assoc in D.
  pose proof (first_occurrence_least _ _ _ _ _ F D) as L.
  pose proof (first_occurrence_bound _ _ _ F) as B.
  apply (f_equal (@length byte)) in E; rewrite !length_app, length_firstn in E.
  destruct token; [congruence | simpl in E; lia].
Qed.

Lemma count_scan_skip token s k :
  count_scan token s k = count_scan token (skipn k s) 0.
Proof.
  revert k; induction s as [|c s IH]; intros [|k]; simpl; auto.
Qed.

Lemma count_scan_none token s :
  first_occurrence token s = None -> count_scan token s 0 = O.
Proof.
  induction s as [|c s IH]; simpl; [reflexivity|].
  destruct (is_prefix token (c :: s)); [discriminate|].
  destruct (first_occurrence token s); [discriminate | auto].
Qed.

Lemma count_scan_some token s k :
  token <> [] -> first_occurrence token s = Some k ->
  count_scan token s 0 = S (count_scan token (skipn (k + length token) s) 0).
Proof.
  intros Ht; revert k; induction s as [|c s IH]; intros k; simpl.
  - destruct token; [congruence | discriminate].
  - destruct (is_prefix token (c :: s)) eqn:P.
    + intros [= <-]; rewrite count_scan_skip; do 2 f_equal.
      destruct token; [congruence | simpl; now rewrite Nat.sub_0_r].
    + destruct (first_occurrence token s) as [k'|] eqn:F; [|discriminate].
      intros [= <-]; simpl; now apply IH.
Qed.

Section Pieces.
Variable token : list byte.
Hypothesis token_nonempty : token <> [].

Lemma pieces_total s : exists qs last, pieces token s qs last.
Proof.
  remember (length s) as n eqn:E; revert s E.
  induction n as [n IH] using lt_wf_ind; intros s ->.
  destruct (first_occurrence token s) as [k|] eqn:F.
  - pose proof (first_occurrence_bound _ _ _ F) as B.
    destruct (IH (length (skipn (k + length token) s))) with
      (s := skipn (k + length token) s) as (qs & last & P); [|reflexivity|].
    + rewrite length_skipn; destruct token; [congruence | simpl in *; lia].
    + exists (firstn k s :: qs), last; now apply pieces_more.
  - exists [], s; now apply pieces_tail.
Qed.

Lemma pieces_weave s qs last : pieces token s qs last -> weave token qs last = s.
Proof.
  induction 1 as [s F | s k qs last F P IH]; simpl; [reflexivity|].
  rewrite IH; symmetry; now apply first_occurrence_split.
Qed.

Lemma pieces_count s qs last :
  pieces token s qs last -> length qs = count_scan token s 0.
Proof.
  induction 1 as [s F | s k qs last F P IH]; simpl.
  - symmetry; now apply count_scan_none.
  - rewrite (count_scan_some _ _ _ token_nonempty F); now f_equal.
Qed.

Lemma pieces_clean s qs last :
  pieces token s qs last ->
  Forall (fun q => ~ occurs_in token q) qs /\ ~ occurs_in token last.
Proof.
  induction 1 as [s F | s k qs last F P [IH1 IH2]].
  - split; [constructor | now apply first_occurrence_none].
  - split; [constructor; [now apply first_occurrence_span | exact IH1] | exact IH2].
Qed.

Lemma pieces_unique s qs last qs' last' :
  pieces token s qs last -> pieces token s qs' last' -> qs = qs' /\ last = last'.
Proof.
  intros P; revert qs' last'.
  induction P as [s F | s k qs last F P IH]; intros qs' last' P'; inversion P'; subst;
    try congruence.
  - now split.
  - assert (k0 = k) by congruence; subst k0.
    destruct (IH _ _ H0) as [-> ->]; now split.
Qed.
End Pieces.

Lemma join_weave sep qs last : join sep (qs ++ [last]) = weave sep qs last.
Proof.
  induction qs as [|q qs IH]; simpl; [reflexivity|].
  rewrite <- IH; destruct qs; reflexivity.
Qed.

Lemma size_weave sep qs last :
  size (weave sep qs last)
  = fold_right Z.add 0 (map size qs) + Z.of_nat (length qs) * size sep + size last.
Proof.
  induction qs as [|q qs IH]; [simpl; lia|].
  cbn [weave map fold_right length]; rewrite !size_app, IH; lia.
Qed.

Lemma size_last_weave sep qs last : size last <= size (weave sep qs last).
Proof.
  induction qs as [|q qs IH]; simpl; [lia|].
  rewrite !size_app; pose proof (size_nonneg q); pose proof (size_nonneg sep); lia.
Qed.

(** ** [find] and [substr] on a subject of representable size *)

Lemma find_some sv token start k :
  0 <= start <= size sv ->
  first_occurrence token (skipn (Z.to_nat start) sv) = Some k ->
  find sv token start = start + Z.of_nat k.
Proof.
  intros Hs F; unfold find; rewrite F.
  destruct (size sv <? start) eqn:E; [apply Z.ltb_lt in E; lia | reflexivity].
Qed.

Lemma find_none sv token start :
  first_occurrence token (skipn (Z.to_nat start) sv) = None ->
  find sv token start = npos.
Proof. intros F; unfold find; rewrite F; now destruct (size sv <? start). Qed.

Lemma find_inv sv token start :
  0 <= start -> find sv token start <> npos ->
  exists k, first_occurrence token (skipn (Z.to_nat start) sv) = Some k
            /\ find sv token start = start + Z.of_nat k
            /\ start + Z.of_nat k + size token <= size sv.
Proof.
  unfold find; intros Hs.
  destruct (size sv <? start) eqn:E; [congruence|]; apply Z.ltb_ge in E.
  destruct (first_occurrence _ _) as [k|] eqn:F; [|congruence].
  intros _; exists k; repeat split.
  pose proof (first_occurrence_bound _ _ _ F) as B; rewrite length_skipn in B.
  unfold size in *; lia.
Qed.

Lemma substr_ok sv pos n :
  0 <= pos <= size sv -> substr sv pos n = Done (View pos (Z.min n (size sv - pos))).
Proof.
  intros Hs; unfold substr.
  destruct (size sv <? pos) eqn:E; [apply Z.ltb_lt in E; lia | reflexivity].
Qed.

(** ** Layout of the parts *)

Lemma layout_end_cons ts start q qs :
  layout_end ts start (q :: qs) = layout_end ts (start + size q + ts) qs.
Proof. reflexivity. Qed.

Lemma layout_app ts start qs last :
  layout ts start (qs ++ [last])
  = layout ts start qs ++ [View (layout_end ts start qs) (size last)].
Proof.
  revert start; induction qs as [|q qs IH]; intros start; simpl; [reflexivity|].
  now rewrite IH.
Qed.

Lemma layout_end_weave sep start qs last :
  layout_end (size sep) start qs = start + size (weave sep qs last) - size last.
Proof.
  revert start; induction qs as [|q qs IH]; intros start.
  - unfold layout_end; simpl; lia.
  - rewrite layout_end_cons, IH; simpl weave; rewrite !size_app; lia.
Qed.

Lemma length_layout ts start qs : length (layout ts start qs) = length qs.
Proof. revert start; induction qs; intros; simpl; auto. Qed.

Lemma layout_in_order ts start from qs :
  0 <= ts -> from <= start -> in_document_order from (layout ts start qs).
Proof.
  intros Hts; revert start from; induction qs as [|q qs IH]; intros start from Hf; simpl.
  - exact I.
  - pose proof (size_nonneg q); repeat split; try lia; apply IH; lia.
Qed.

Lemma text_layout sv sep qs last start :
  0 <= start ->
  weave sep qs last = skipn (Z.to_nat start) sv ->
  map (text sv) (layout (size sep) start (qs ++ [last])) = qs ++ [last].
Proof.
  revert start; induction qs as [|q qs IH]; intros start Hs E.
  - simpl in *; unfold slice, size; rewrite <- E, Nat2Z.id, firstn_all; reflexivity.
  - cbn [app layout map]; f_equal.
    + simpl in *; unfold slice, size; rewrite <- E, Nat2Z.id.
      now rewrite firstn_app, Nat.sub_diag, firstn_all, firstn_O, app_nil_r.
    + apply IH; [pose proof (size_nonneg q); pose proof (size_nonneg sep); lia|].
      replace (Z.to_nat (start + size q + size sep))
        with (Z.to_nat start + (length q + length sep))%nat by (unfold size; lia).
      rewrite <- skipn_skipn_add, <- E; simpl.
      rewrite app_assoc, skipn_app, skipn_all2 by (rewrite length_app; lia).
      rewrite length_app, Nat.sub_diag; reflexivity.
Qed.

(** ** The split loops on a non-empty token *)

Section SplitLoops.
Context {T : Type} `{Part T}.
Variables sv token : list byte.
Hypothesis token_nonempty : token <> [].
Hypothesis sv_fits : size sv < npos.

Lemma token_size_pos : 0 < size token.
Proof. unfold size; destruct token; [congruence | simpl; lia]. Qed.

(** One match at offset [k] of the rest: what the loop's arithmetic gives. *)
Lemma match_arith start k :
  0 <= start <= size sv ->
  first_occurrence token (skipn (Z.to_nat start) sv) = Some k ->
  let i := start + Z.of_nat k in
  i <> npos /\ wrap (i - start) = Z.of_nat k
  /\ wrap (i + size token) = i + size token
  /\ 0 <= i + size token <= size sv
  /\ Z.min (Z.of_nat k) (size sv - start) = Z.of_nat k
  /\ skipn (k + length token) (skipn (Z.to_nat start) sv)
     = skipn (Z.to_nat (i + size token)) sv.
Proof.
  intros Hs F i; pose proof (first_occurrence_bound _ _ _ F) as B.
  rewrite length_skipn in B; pose proof token_size_pos as Ht.
  assert (Hk : Z.of_nat k + size token <= size sv - start) by (unfold size in *; lia).
  pose proof modulus_eq as M; subst i; repeat split; try lia.
  - replace (start + Z.of_nat k - start) with (Z.of_nat k) by lia.
    apply wrap_small; lia.
  - apply wrap_small; lia.
  - rewrite skipn_skipn_add; f_equal; unfold size; lia.
Qed.

Lemma keep_loop s qs last :
  pieces token s qs last ->
  forall start parts fuel,
    0 <= start <= size sv -> s = skipn (Z.to_nat start) sv ->
    (length s < fuel)%nat ->
    while fuel (when detail.found) (detail.keep_step sv token)
      (start, find sv token start, parts)
    = Done (layout_end (size token) start qs, npos,
            parts ++ map (emplace sv) (layout (size token) start qs)).
Proof.
  induction 1 as [s F | s k qs last F P IH]; intros start parts fuel Hs E Hf;
    (destruct fuel as [|fuel]; [lia|]); subst s; cbn [while].
  - rewrite (find_none _ _ _ F); unfold when, detail.found; simpl.
    now rewrite app_nil_r.
  - rewrite (find_some _ _ _ _ Hs F).
    destruct (match_arith _ _ Hs F) as (Hn & Hw & Hw' & Hr & Hm & Hk).
    unfold when, detail.found at 1; cbn [bind].
    apply Z.eqb_neq in Hn; rewrite Hn; cbn [negb detail.keep_step bind].
    rewrite Hw, substr_ok, Hm by exact Hs; cbn [bind]; rewrite Hw'.
    rewrite (IH _ _ fuel Hr); [| now rewrite Hk |].
    + cbn [layout map]; rewrite <- app_assoc; cbn [app].
      pose proof (first_occurrence_bound _ _ _ F) as B.
      assert (Ek : size (firstn k (skipn (Z.to_nat start) sv)) = Z.of_nat k)
        by (unfold size; rewrite length_firstn; lia).
      now rewrite layout_end_cons, Ek.
    + pose proof (first_occurrence_bound _ _ _ F) as B.
      pose proof token_size_pos as Ht; unfold size in Ht.
      rewrite length_skipn; lia.
Qed.

Lemma split_keep_empty_pieces qs last fuel :
  pieces token sv qs last -> (length sv < fuel)%nat ->
  detail.split_keep_empty fuel sv token
  = Done (map (emplace sv) (layout (size token) 0 (qs ++ [last]))).
Proof.
  intros P Hf; unfold detail.split_keep_empty.
  pose proof (size_nonneg sv) as Hs.
  rewrite (keep_loop _ _ _ P 0 [] fuel) by (simpl; auto; lia); cbn [bind].
  pose proof (pieces_weave _ _ _ _ P) as W.
  pose proof (layout_end_weave token 0 qs last) as L; rewrite W in L.
  pose proof (size_nonneg last) as Hl.
  pose proof (size_last_weave token qs last) as Hw; rewrite W in Hw.
  rewrite substr_ok by lia; cbn [bind app].
  rewrite layout_app, map_app; cbn [map].
  replace (size sv - layout_end (size token) 0 qs) with (size last) by lia.
  now rewrite Z.min_r by lia.
Qed.
Lemma ignore_loop s qs last :
  pieces token s qs last ->
  forall start parts fuel,
    0 <= start <= size sv -> s = skipn (Z.to_nat start) sv ->
    (length s < fuel)%nat ->
    while fuel (when detail.found) (detail.ignore_step sv token)
      (start, find sv token start, parts)
    = Done (layout_end (size token) start qs, npos,
            parts ++ map (emplace sv) (filter kept (layout (size token) start qs))).
Proof.
  induction 1 as [s F | s k qs last F P IH]; intros start parts fuel Hs E Hf;
    (destruct fuel as [|fuel]; [lia|]); subst s; cbn [while].
  - rewrite (find_none _ _ _ F); unfold when, detail.found; simpl.
    now rewrite app_nil_r.
  - rewrite (find_some _ _ _ _ Hs F).
    destruct (match_arith _ _ Hs F) as (Hn & Hw & Hw' & Hr & Hm & Hk).
    unfold when, detail.found at 1; cbn [bind].
    apply Z.eqb_neq in Hn; rewrite Hn; cbn [negb detail.ignore_step bind].
    pose proof (first_occurrence_bound _ _ _ F) as B.
    assert (Ek : size (firstn k (skipn (Z.to_nat start) sv)) = Z.of_nat k)
      by (unfold size; rewrite length_firstn; lia).
    assert (Hfuel : (length (skipn (Z.to_nat (start + Z.of_nat k + size token)) sv)
                     < fuel)%nat).
    { pose proof token_size_pos as Ht; unfold size in *.
      rewrite length_skipn in *; lia. }
    rewrite Hw, layout_end_cons; cbn [layout filter kept]; rewrite Ek.
    destruct (0 <? Z.of_nat k).
    + rewrite substr_ok, Hm by exact Hs; cbn [bind]; rewrite Hw'.
      rewrite (IH _ _ fuel Hr); [| now rewrite Hk | now rewrite Hk].
      now rewrite <- app_assoc.
    + cbn [bind]; rewrite Hw'.
      rewrite (IH _ _ fuel Hr); [| now rewrite Hk | now rewrite Hk].
      reflexivity.
Qed.

Lemma split_ignore_empty_pieces qs last fuel :
  pieces token sv qs last -> (length sv < fuel)%nat ->
  detail.split_ignore_empty fuel sv token
  = Done (map (emplace sv) (filter kept (layout (size token) 0 (qs ++ [last])))).
Proof.
  intros P Hf; unfold detail.split_ignore_empty.
  pose proof (size_nonneg sv) as Hs.
  rewrite (ignore_loop _ _ _ P 0 [] fuel) by (simpl; auto; lia); cbn [bind].
  pose proof (pieces_weave _ _ _ _ P) as W.
  pose proof (layout_end_weave token 0 qs last) as L; rewrite W in L.
  pose proof (size_nonneg last) as Hl.
  pose proof (size_last_weave token qs last) as Hw; rewrite W in Hw.
  pose proof modulus_eq as M.
  replace (size sv - layout_end (size token) 0 qs) with (size last) by lia.
  rewrite wrap_small by lia.
  rewrite layout_app, filter_app, map_app; cbn [filter kept app].
  destruct (0 <? size last); [|now rewrite app_nil_r].
  rewrite substr_ok by lia; cbn [bind map].
  replace (size sv - layout_end (size token) 0 qs) with (size last) by lia.
  now rewrite Z.min_r by lia.
Qed.
End SplitLoops.

(** ** Views and copies *)

Lemma slice_nonempty sv pos len :
  0 <= pos < size sv -> 0 < len -> slice sv pos len <> [].
Proof.
  intros Hp Hl; unfold slice.
  destruct (skipn (Z.to_nat pos) sv) as [|c r] eqn:E.
  - apply (f_equal (@length byte)) in E; rewrite length_skipn in E.
    unfold size in Hp; simpl in E; lia.
  - destruct (Z.to_nat len) eqn:N; [lia | discriminate].
Qed.

Lemma split_keep_empty_copy fuel sv token :
  detail.split_keep_empty (T := list byte) fuel sv token
  = omap (map (text sv)) (detail.split_keep_empty (T := view) fuel sv token).
Proof.
  unfold detail.split_keep_empty.
  pose (f := fun st : @detail.split_state view =>
               let '(start, i, parts) := st in (start, i, map (text sv) parts)).
  change (0, find sv token 0, @nil (list byte)) with (f (0, find sv token 0, [])).
  rewrite (while_map f (when detail.found) (detail.keep_step sv token)).
  - destruct (while _ _ _ _) as [[[start i] parts]| |]; simpl; try reflexivity.
    destruct (substr sv start npos); simpl; try reflexivity.
    now rewrite map_app.
  - now intros [[start i] parts].
  - intros [[start i] parts]; simpl.
    destruct (substr sv start (wrap (i - start))); simpl; try reflexivity.
    now rewrite map_app.
Qed.

Lemma split_ignore_empty_copy fuel sv token :
  detail.split_ignore_empty (T := list byte) fuel sv token
  = omap (map (text sv)) (detail.split_ignore_empty (T := view) fuel sv token).
Proof.
  unfold detail.split_ignore_empty.
  pose (f := fun st : @detail.split_state view =>
               let '(start, i, parts) := st in (start, i, map (text sv) parts)).
  change (0, find sv token 0, @nil (list byte)) with (f (0, find sv token 0, [])).
  rewrite (while_map f (when detail.found) (detail.ignore_step sv token)).
  - destruct (while _ _ _ _) as [[[start i] parts]| |]; simpl; try reflexivity.
    destruct (0 <? wrap (size sv - start)); [|reflexivity].
    destruct (substr sv start npos); simpl; try reflexivity.
    now rewrite map_app.
  - now intros [[start i] parts].
  - intros [[start i] parts]; simpl.
    destruct (0 <? wrap (i - start)); [|reflexivity].
    destruct (substr sv start (wrap (i - start))); simpl; try reflexivity.
    now rewrite map_app.
Qed.

Lemma split_copy_split fuel sv token keep_empty_parts :
  split_copy fuel sv token keep_empty_parts
  = omap (map (text sv)) (split fuel sv token keep_empty_parts).
Proof.
  unfold split_copy, split; destruct keep_empty_parts;
    [apply split_keep_empty_copy | apply split_ignore_empty_copy].
Qed.

Lemma split_first_copy_split_first sv token :
  split_first_copy sv token
  = omap (fun '(a, b) => (text sv a, text sv b)) (split_first sv token).
Proof.
  unfold split_first_copy, split_first.
  destruct (negb (find sv token 0 =? npos)).
  - destruct (substr sv 0 (find sv token 0)); simpl; try reflexivity.
    destruct (substr sv _ npos); reflexivity.
  - simpl; unfold slice, size; simpl; now rewrite Nat2Z.id, firstn_all.
Qed.

Lemma split_returns sv token keep_empty_parts fuel :
  token <> [] -> size sv < npos -> (length sv < fuel)%nat ->
  exists views, split fuel sv token keep_empty_parts = Done views.
Proof.
  intros Ht Hs Hf; destruct (pieces_total token Ht sv) as (qs & last & P).
  unfold split; destruct keep_empty_parts; eexists.
  - eapply split_keep_empty_pieces; eauto.
  - eapply split_ignore_empty_pieces; eauto.
Qed.

Lemma wrap_le z : 0 <= z -> 0 <= wrap z <= z.
Proof.
  intros Hz; unfold wrap; split; [apply Z.mod_pos_bound; reflexivity|].
  apply Z.mod_le; [exact Hz | reflexivity].
Qed.

Lemma split_first_returns sv token : exists a b, split_first sv token = Done (a, b).
Proof.
  unfold split_first; destruct (find sv token 0 =? npos) eqn:E; simpl.
  - now eexists _, _.
  - apply Z.eqb_neq in E; destruct (find_inv sv token 0) as (k & F & -> & B); [lia | exact E|].
    pose proof (size_nonneg token); pose proof (size_nonneg sv).
    pose proof (wrap_le (0 + Z.of_nat k + size token)).
    rewrite !substr_ok by lia; simpl; now eexists _, _.
Qed.

(** ** The ignore-empty policy, for every subject and every token *)

Lemma ignore_step_nonempty sv token start i parts s2 :
  0 <= start -> i = find sv token start -> i <> npos ->
  Forall nonempty parts ->
  detail.ignore_step (T := list byte) sv token (start, i, parts) = Done s2 ->
  let '(start', i', parts') := s2 in
  0 <= start' /\ i' = find sv token start' /\ Forall nonempty parts'.
Proof.
  intros Hs Ei Hn Hp; subst i.
  destruct (find_inv sv token start Hs Hn) as (k & F & E & B).
  unfold detail.ignore_step; rewrite E.
  replace (start + Z.of_nat k - start) with (Z.of_nat k) by lia.
  pose proof (wrap_le (Z.of_nat k)) as Wk; pose proof (size_nonneg token) as Ht.
  destruct (0 <? wrap (Z.of_nat k)) eqn:L.
  - apply Z.ltb_lt in L; rewrite substr_ok by lia; cbn [bind].
    intros [= <-]; repeat split; [apply wrap_range|].
    apply Forall_app; split; [exact Hp|]; constructor; [|constructor].
    apply slice_nonempty; lia.
  - cbn [bind]; intros [= <-]; repeat split; [apply wrap_range | exact Hp].
Qed.

Lemma split_ignore_empty_nonempty fuel sv token parts :
  detail.split_ignore_empty (T := list byte) fuel sv token = Done parts ->
  Forall nonempty parts.
Proof.
  unfold detail.split_ignore_empty.
  destruct (while _ _ _ _) as [[[start i] ps]| |] eqn:W; simpl; try discriminate.
  assert (Hpost : 0 <= start /\ Forall nonempty ps).
  { apply (while_partial
             (fun '(start, i, ps) =>
                0 <= start /\ i = find sv token start /\ Forall nonempty ps)
             (fun '(start, _, ps) => 0 <= start /\ Forall nonempty ps))
      with (4 := W).
    - intros [[a b] c] s1 s2 (Ha & Hb & Hc); unfold when; intros [= Hf <-] Hstep.
      apply (ignore_step_nonempty sv token a b c s2); auto.
      unfold detail.found in Hf; apply negb_true_iff, Z.eqb_neq in Hf; exact Hf.
    - intros [[a b] c] s1 (Ha & Hb & Hc); unfold when; intros [= _ <-]; now split.
    - repeat split; [lia | constructor]. }
  destruct Hpost as [Hs Hp].
  destruct (0 <? wrap (size sv - start)) eqn:L; [|now intros [= <-]].
  unfold substr; destruct (size sv <? start) eqn:E; simpl; [discriminate|].
  intros [= <-]; apply Z.ltb_lt in L; apply Z.ltb_ge in E.
  apply Forall_app; split; [exact Hp|]; constructor; [|constructor].
  assert (size sv - start <> 0) by (intros Z0; rewrite Z0 in L; discriminate L).
  apply slice_nonempty; [lia|]; pose proof modulus_eq; unfold npos, modulus in *; lia.
Qed.

(** ** Writing into the result buffer *)

Lemma size_firstn s k : 0 <= k <= size s -> size (firstn (Z.to_nat k) s) = k.
Proof. unfold size; intros; rewrite length_firstn; lia. Qed.

Lemma size_store dst at_ src :
  0 <= at_ -> at_ + size src <= size dst -> size (store dst at_ src) = size dst.
Proof.
  intros Ha Hb; pose proof (size_nonneg src); unfold store.
  rewrite !size_app, size_firstn, size_skipn by lia; lia.
Qed.

Lemma store_nil dst at_ : store dst at_ [] = dst.
Proof. unfold store; simpl; rewrite Z.add_0_r; apply firstn_skipn. Qed.

Lemma store_all dst src : size src = size dst -> store dst 0 src = src.
Proof.
  intros E; unfold store; simpl; rewrite E.
  unfold size; rewrite Nat2Z.id, skipn_all; apply app_nil_r.
Qed.

Lemma store_store dst at_ a b :
  0 <= at_ -> at_ + size a + size b <= size dst ->
  store (store dst at_ a) (at_ + size a) b = store dst at_ (a ++ b).
Proof.
  intros Ha Hb; pose proof (size_nonneg a); pose proof (size_nonneg b).
  unfold store; rewrite size_app.
  replace (Z.to_nat (at_ + size a)) with (Z.to_nat at_ + length a)%nat
    by (unfold size; lia).
  replace (Z.to_nat (at_ + size a + size b))
    with (Z.to_nat at_ + length a + length b)%nat by (unfold size; lia).
  replace (Z.to_nat (at_ + (size a + size b)))
    with (Z.to_nat at_ + length a + length b)%nat by (unfold size; lia).
  set (n := Z.to_nat at_).
  assert (Ln : length (firstn n dst ++ a) = (n + length a)%nat).
  { rewrite length_app, length_firstn; unfold size in *; lia. }
  rewrite (app_assoc (firstn n dst) a).
  rewrite firstn_app, skipn_app, Ln.
  rewrite (firstn_all2 (n := n + length a) (firstn n dst ++ a)) by lia.
  rewrite (skipn_all2 (n := n + length a + length b) (firstn n dst ++ a)) by lia.
  replace (n + length a - (n + length a))%nat with O by lia.
  replace (n + length a + length b - (n + length a))%nat with (length b) by lia.
  rewrite firstn_O, app_nil_r, app_nil_l, skipn_skipn_add, <- !app_assoc.
  reflexivity.
Qed.

Lemma copy_ok src first last dst d_first :
  0 <= first <= last -> last <= size src ->
  0 <= d_first -> d_first + (last - first) <= size dst ->
  copy src first last dst d_first
  = Done (store dst d_first (slice src first (last - first)), d_first + (last - first)).
Proof.
  intros [H1 H2] H3 H4 H5; unfold copy.
  apply Z.leb_le in H1, H2, H3, H4, H5; now rewrite H1, H2, H3, H4, H5.
Qed.

Lemma slice_whole s : slice s 0 (size s) = s.
Proof. unfold slice, size; simpl; rewrite Nat2Z.id; apply firstn_all. Qed.

Lemma slice_head sv start q r :
  skipn (Z.to_nat start) sv = q ++ r -> slice sv start (size q) = q.
Proof.
  intros E; unfold slice, size; rewrite E, Nat2Z.id.
  now rewrite firstn_app, Nat.sub_diag, firstn_all, firstn_O, app_nil_r.
Qed.

Lemma skipn_past sv start q sep r :
  0 <= start ->
  skipn (Z.to_nat start) sv = q ++ sep ++ r ->
  skipn (Z.to_nat (start + size q + size sep)) sv = r.
Proof.
  intros Hs E.
  replace (Z.to_nat (start + size q + size sep))
    with (Z.to_nat start + (length q + length sep))%nat by (unfold size; lia).
  rewrite <- skipn_skipn_add, E, app_assoc, skipn_app.
  rewrite skipn_all2 by (rewrite length_app; lia).
  now rewrite length_app, Nat.sub_diag.
Qed.

Lemma weave_app sep qs last : weave sep qs [] ++ last = weave sep qs last.
Proof.
  induction qs as [|q qs IH]; simpl; [reflexivity|].
  now rewrite <- !app_assoc, IH.
Qed.

Lemma size_weave_nil sep qs last :
  size (weave sep qs last) = size (weave sep qs []) + size last.
Proof. rewrite <- weave_app, size_app; reflexivity. Qed.

Lemma length_marks ts start qs : length (marks ts start qs) = length qs.
Proof. revert start; induction qs; intros; simpl; auto. Qed.

(** ** The replacer on a non-empty search token *)

Lemma wrap_wrap_sum a b c : wrap (wrap (a - wrap b) + wrap c) = wrap (a - b + c).
Proof.
  assert (Hm : modulus <> 0) by discriminate; unfold wrap.
  rewrite Z.add_mod_idemp_r, Zminus_mod_idemp_r by exact Hm.
  now rewrite Z.add_mod_idemp_l by exact Hm.
Qed.

Section Replacer.
Variables sv search_token replace_token : list byte.
Hypothesis token_nonempty : search_token <> [].
Hypothesis sv_fits : size sv < npos.

Lemma scan_loop s qs last :
  pieces search_token s qs last ->
  forall start positions fuel,
    0 <= start <= size sv -> s = skipn (Z.to_nat start) sv ->
    (length s < fuel)%nat ->
    while fuel (when (fun '(pos, _) => negb (pos =? npos)))
      (scan_step sv search_token) (find sv search_token start, positions)
    = Done (npos, positions ++ marks (size search_token) start qs).
Proof.
  induction 1 as [s F | s k qs last F P IH]; intros start positions fuel Hs E Hf;
    (destruct fuel as [|fuel]; [lia|]); subst s; cbn [while].
  - rewrite (find_none _ _ _ F); unfold when; simpl; now rewrite app_nil_r.
  - rewrite (find_some _ _ _ _ Hs F).
    destruct (match_arith sv search_token token_nonempty sv_fits _ _ Hs F)
      as (Hn & Hw & Hw' & Hr & Hm & Hk).
    unfold when at 1; cbn [bind].
    apply Z.eqb_neq in Hn; rewrite Hn; cbn [negb scan_step bind].
    rewrite Hw', (IH _ _ fuel Hr); [| now rewrite Hk |].
    + pose proof (first_occurrence_bound _ _ _ F) as B.
      assert (Ek : size (firstn k (skipn (Z.to_nat start) sv)) = Z.of_nat k)
        by (unfold size; rewrite length_firstn; lia).
      cbn [marks]; now rewrite <- app_assoc, Ek.
    + pose proof (first_occurrence_bound _ _ _ F) as B.
      pose proof (token_size_pos search_token token_nonempty) as Ht.
      unfold size in Ht; rewrite length_skipn; lia.
Qed.

Lemma replace_scan_pieces qs last fuel :
  pieces search_token sv qs last -> (length sv < fuel)%nat ->
  replace_scan fuel sv search_token = Done (marks (size search_token) 0 qs).
Proof.
  intros P Hf; unfold replace_scan; pose proof (size_nonneg sv).
  now rewrite (scan_loop _ _ _ P 0 [] fuel) by (simpl; auto; lia).
Qed.

Lemma fill_loop last qs :
  forall start result result_it,
    weave search_token qs last = skipn (Z.to_nat start) sv ->
    0 <= start <= size sv -> 0 <= result_it ->
    result_it + size (weave replace_token qs []) <= size result ->
    for_each (marks (size search_token) start qs)
      (fill_step sv search_token replace_token) (result, result_it, start)
    = Done (store result result_it (weave replace_token qs []),
            result_it + size (weave replace_token qs []),
            layout_end (size search_token) start qs).
Proof.
  induction qs as [|q qs IH]; intros start result result_it W Hs Hr Hb.
  - simpl; now rewrite store_nil, Z.add_0_r.
  - cbn [marks for_each fill_step weave] in *.
    pose proof (size_nonneg q) as Hq; pose proof (size_nonneg replace_token) as HR.
    pose proof (size_nonneg search_token) as HT.
    pose proof (size_nonneg (weave replace_token qs [])) as HW.
    pose proof (size_nonneg (weave search_token qs last)) as HW'.
    assert (Hlen : size sv - start = size q + size search_token
                                     + size (weave search_token qs last)).
    { rewrite <- size_skipn, <- W, !size_app by lia; lia. }
    rewrite !size_app in Hb.
    rewrite copy_ok by lia; cbn [bind].
    replace (start + size q - start) with (size q) by lia.
    rewrite (slice_head sv start q _ (eq_sym W)).
    rewrite copy_ok; [| lia | lia | lia | rewrite size_store by lia; lia]; cbn [bind].
    rewrite Z.sub_0_r, slice_whole, store_store by lia.
    rewrite IH; [ | | lia | lia | ].
    + rewrite layout_end_cons.
      replace (result_it + size q + size replace_token)
        with (result_it + size (q ++ replace_token)) by (rewrite size_app; lia).
      rewrite store_store by (rewrite ?size_app; lia).
      rewrite <- !app_assoc, !size_app; do 3 f_equal; lia.
    + symmetry; apply (skipn_past sv start q search_token); [lia | now symmetry].
    + rewrite size_store by (rewrite ?size_app; lia); lia.
Qed.

Lemma replace_fill_pieces qs last result :
  weave search_token qs last = sv ->
  size result = size (weave replace_token qs last) ->
  replace_fill sv search_token replace_token (marks (size search_token) 0 qs) result
  = Done (weave replace_token qs last).
Proof.
  intros W Hr; unfold replace_fill.
  pose proof (size_nonneg sv) as Hs.
  pose proof (size_nonneg (weave replace_token qs [])) as HW.
  pose proof (size_nonneg last) as Hl.
  rewrite size_weave_nil in Hr.
  rewrite (fill_loop last) by (simpl; lia || auto); cbn [bind].
  pose proof (layout_end_weave search_token 0 qs last) as L; rewrite W in L.
  pose proof (size_last_weave search_token qs last) as Hlw; rewrite W in Hlw.
  rewrite size_store by lia.
  destruct (0 + size (weave replace_token qs []) =? size result) eqn:E; cbn [negb].
  - apply Z.eqb_eq in E; assert (last = []) by (apply size_nil_iff; lia); subst last.
    now rewrite store_all by lia.
  - rewrite copy_ok; [| lia | lia | lia | rewrite size_store by lia; lia]; cbn [bind].
    replace (size sv - layout_end (size search_token) 0 qs) with (size last) by lia.
    assert (El : slice sv (layout_end (size search_token) 0 qs) (size last) = last).
    { unfold slice.
      replace (Z.to_nat (layout_end (size search_token) 0 qs))
        with (length (weave search_token qs [])).
      2:{ rewrite L, <- W, size_weave_nil; unfold size; lia. }
      rewrite <- W at 1.
      rewrite <- (weave_app search_token qs last), skipn_app, skipn_all, Nat.sub_diag.
      unfold size; simpl; now rewrite Nat2Z.id, firstn_all. }
    rewrite El, store_store, weave_app by lia.
    f_equal; apply store_all; rewrite size_weave_nil; lia.
Qed.

Lemma replace_pieces qs last fuel :
  pieces search_token sv qs last -> (length sv < fuel)%nat ->
  size (weave replace_token qs last) < modulus ->
  replace fuel sv search_token replace_token = Done (weave replace_token qs last).
Proof.
  intros P Hf Hout; unfold replace.
  rewrite (replace_scan_pieces _ _ _ P Hf); cbn [bind].
  pose proof (pieces_weave _ _ _ _ P) as W.
  destruct qs as [|q qs]; [simpl in *; now rewrite W|].
  remember (q :: qs) as ps eqn:Eps.
  destruct (marks (size search_token) 0 ps) as [|m ms] eqn:M.
  { apply (f_equal (@length Z)) in M; rewrite length_marks, Eps in M; discriminate. }
  rewrite <- M, length_marks; apply replace_fill_pieces; [exact W|].
  unfold replace_size, resize; rewrite wrap_wrap_sum.
  pose proof (size_weave search_token ps last) as S1; rewrite W in S1.
  pose proof (size_weave replace_token ps last) as S2.
  pose proof (size_nonneg (weave replace_token ps last)).
  replace (size sv - size search_token * Z.of_nat (length ps)
           + size replace_token * Z.of_nat (length ps))
    with (size (weave replace_token ps last)) by lia.
  rewrite wrap_small by lia; unfold size at 1; rewrite repeat_length; unfold size; lia.
Qed.
End Replacer.

Lemma replace_output_size token replacement sv qs last :
  token <> [] -> pieces token sv qs last ->
  let n := Z.of_nat (count_nonoverlapping_occurrences sv token) in
  size (weave replacement qs last) = size sv - n * size token + n * size replacement.
Proof.
  intros Ht P n.
  pose proof (size_weave token qs last) as S1.
  rewrite (pieces_weave _ _ _ _ P) in S1.
  rewrite size_weave; subst n; unfold count_nonoverlapping_occurrences.
  rewrite <- (pieces_count token Ht _ _ _ P); lia.
Qed.

(** ** The empty token *)

Lemma find_empty_token sv : find sv [] 0 = 0.
Proof.
  unfold find; pose proof (size_nonneg sv) as Hs.
  destruct (size sv <? 0) eqn:E; [apply Z.ltb_lt in E; lia|].
  now destruct sv.
Qed.

Section EmptyToken.
Context {T : Type} `{Part T}.
Variable sv : list byte.

Lemma keep_loop_empty_token fuel parts :
  while fuel (when detail.found) (detail.keep_step sv []) (0, 0, parts) = OutOfFuel.
Proof.
  apply (while_diverges stuck); [|now split].
  intros [[start i] ps] [-> ->]; pose proof (size_nonneg sv).
  eexists _, _; split; [reflexivity|]; cbn [detail.keep_step].
  rewrite substr_ok by lia; cbn [bind]; split; [reflexivity|].
  split; [reflexivity | apply find_empty_token].
Qed.

Lemma ignore_loop_empty_token fuel parts :
  while fuel (when detail.found) (detail.ignore_step sv []) (0, 0, parts) = OutOfFuel.
Proof.
  apply (while_diverges stuck); [|now split].
  intros [[start i] ps] [-> ->].
  eexists _, _; split; [reflexivity|]; cbn [detail.ignore_step].
  split; [reflexivity|]; split; [reflexivity | apply find_empty_token].
Qed.
End EmptyToken.

Lemma split_empty_token fuel sv keep_empty_parts :
  split fuel sv [] keep_empty_parts = OutOfFuel.
Proof.
  unfold split, detail.split_keep_empty, detail.split_ignore_empty.
  rewrite find_empty_token; destruct keep_empty_parts.
  - now rewrite keep_loop_empty_token.
  - now rewrite ignore_loop_empty_token.
Qed.

Lemma replace_scan_empty_token fuel sv : replace_scan fuel sv [] = OutOfFuel.
Proof.
  unfold replace_scan; rewrite find_empty_token.
  rewrite (while_diverges (fun '(pos, _) => pos = 0)); [reflexivity | | reflexivity].
  intros [pos positions] ->; eexists _, _; split; [reflexivity|].
  cbn [scan_step]; split; [reflexivity | apply find_empty_token].
Qed.

(** ** The walk of [compare] *)

Section Walk.
Context {I : Type} `{Iterator I}.
(** The iterators of the two ranges by position, and what a dereference at
    a position gives. *)
Variables at_a at_b : Z -> I.
Variables read_a read_b : Z -> outcome byte.
Hypothesis deref_a : forall j, deref (at_a j) = read_a j.
Hypothesis deref_b : forall j, deref (at_b j) = read_b j.
Hypothesis incr_a : forall j, incr (at_a j) = at_a (j + 1).
Hypothesis incr_b : forall j, incr (at_b j) = at_b (j + 1).
Hypothesis same_b : forall j k, same (at_b j) (at_b k) = (j =? k).

(** Length of the second range, whose bytes agree with the first range's. *)
Variable n : Z.
Hypothesis agree :
  forall j, 0 <= j < n -> exists c, read_a j = Done c /\ read_b j = Done c.

Lemma walk_loop d :
  forall j fuel,
    0 <= j -> j + Z.of_nat d = n -> (d < fuel)%nat ->
    while fuel (detail.advance (at_b n)) (fun st => Done st) (at_a j, at_b j)
    = match d with
      | O => Done (at_a n, at_b n)
      | S _ => _ <- read_a n ;; _ <- read_b n ;; Done (at_a n, at_b n)
      end.
Proof.
  induction d as [|d IH]; intros j fuel Hj Hn Hf;
    (destruct fuel as [|fuel]; [lia|]); cbn [while detail.advance].
  - replace j with n by lia; now rewrite same_b, Z.eqb_refl.
  - rewrite same_b; destruct (j =? n) eqn:E; [apply Z.eqb_eq in E; lia|].
    cbn [negb]; rewrite incr_a, incr_b, deref_a, deref_b.
    destruct d as [|d].
    + replace (j + 1) with n by lia.
      destruct (read_a n) as [x| |]; cbn [bind]; try reflexivity.
      destruct (read_b n) as [y| |]; cbn [bind]; try reflexivity.
      destruct (Byte.eqb x y); [|reflexivity].
      apply (IH n fuel); lia.
    + destruct (agree (j + 1)) as (c & -> & ->); [lia|]; cbn [bind].
      rewrite (byte_dec_lb eq_refl); apply (IH (j + 1) fuel); lia.
Qed.

(** When the ranges agree, [compare] dereferences both iterators at
    position [n], where the second is [last], and then answers [true]. *)
Lemma compare_agree fuel :
  0 < n -> (Z.to_nat n < fuel)%nat ->
  detail.compare fuel (at_a 0) (at_b 0) (at_b n)
  = _ <- read_a n ;; _ <- read_b n ;; Done true.
Proof.
  intros Hn Hf; unfold detail.compare; rewrite deref_a, deref_b.
  destruct (agree 0) as (c & -> & ->); [lia|]; cbn [bind].
  rewrite (byte_dec_lb eq_refl); cbn [negb].
  rewrite (walk_loop (Z.to_nat n) 0 fuel) by lia.
  destruct (Z.to_nat n) eqn:E; [lia|].
  destruct (read_a n); cbn [bind]; try reflexivity.
  destruct (read_b n); cbn [bind]; try reflexivity.
  now rewrite same_b, Z.eqb_refl.
Qed.
End Walk.

Lemma holding_inside around s k c :
  nth_error s k = Some c -> holding around s (Z.of_nat k) = Some c.
Proof.
  intros E; unfold holding, in_range.
  assert (k < length s)%nat by (apply nth_error_Some; congruence).
  replace (0 <=? Z.of_nat k) with true by (symmetry; apply Z.leb_le; lia).
  replace (Z.of_nat k <? size s) with true
    by (symmetry; apply Z.ltb_lt; unfold size; lia).
  now rewrite Nat2Z.id.
Qed.

Lemma holding_outside around s k :
  k < 0 \/ size s <= k -> holding around s k = around k.
Proof.
  intros Hk; unfold holding, in_range.
  destruct (0 <=? k) eqn:A; [|reflexivity]; apply Z.leb_le in A.
  destruct (k <? size s) eqn:B; [apply Z.ltb_lt in B; lia | reflexivity].
Qed.

Section Comparisons.
Variables around_sv around_test : memory.
Variables sv test : list byte.
Hypothesis test_nonempty : 0 < size test.

(** From the front, when [test] is a prefix of [sv]. *)
Lemma starts_with_prefix fuel r :
  sv = test ++ r -> (length test < fuel)%nat ->
  starts_with around_sv around_test fuel sv test
  = _ <- load (holding around_sv sv) (size test) ;;
    _ <- load around_test (size test) ;; Done true.
Proof.
  intros E Hf; unfold starts_with, empty.
  assert (Hs : size sv = size test + size r) by (rewrite E; apply size_app).
  pose proof (size_nonneg r) as Hr.
  replace (size sv =? 0) with false by (symmetry; apply Z.eqb_neq; lia).
  replace (size test =? 0) with false by (symmetry; apply Z.eqb_neq; lia).
  replace (size sv <? size test) with false by (symmetry; apply Z.ltb_ge; lia).
  cbn [orb]; unfold begin, end_.
  rewrite (compare_agree
             (fun j => Ptr (holding around_sv sv) j)
             (fun j => Ptr (holding around_test test) j)
             (load (holding around_sv sv)) (load (holding around_test test)));
    try reflexivity; try (unfold size; lia).
  - unfold load; now rewrite (holding_outside around_test test) by lia.
  - intros j Hj; destruct (nth_error test (Z.to_nat j)) as [c|] eqn:N.
    + exists c; unfold load; rewrite <- (Z2Nat.id j) by lia.
      rewrite (holding_inside around_test test _ c N).
      rewrite (holding_inside around_sv sv _ c); [now split|].
      rewrite E, nth_error_app1; [exact N | unfold size in Hj; lia].
    + apply nth_error_None in N; unfold size in Hj; lia.
  - exact test_nonempty.
Qed.

(** From the back, when [test] is a suffix of [sv]. *)
Lemma ends_with_suffix fuel l :
  sv = l ++ test -> (length test < fuel)%nat ->
  ends_with around_sv around_test fuel sv test
  = _ <- load (holding around_sv sv) (size sv - size test - 1) ;;
    _ <- load around_test (- 1) ;; Done true.
Proof.
  intros E Hf; unfold ends_with, empty.
  assert (Hs : size sv = size l + size test) by (rewrite E; apply size_app).
  pose proof (size_nonneg l) as Hl.
  replace (size sv =? 0) with false by (symmetry; apply Z.eqb_neq; lia).
  replace (size test =? 0) with false by (symmetry; apply Z.eqb_neq; lia).
  replace (size sv <? size test) with false by (symmetry; apply Z.ltb_ge; lia).
  cbn [orb]; unfold rbegin, rend, begin, end_.
  pose (at_a := fun j => Rev (Ptr (holding around_sv sv) (size sv - j))).
  pose (at_b := fun j => Rev (Ptr (holding around_test test) (size test - j))).
  assert (C : detail.compare fuel (at_a 0) (at_b 0) (at_b (size test))
              = _ <- load (holding around_sv sv) (size sv - size test - 1) ;;
                _ <- load (holding around_test test) (size test - size test - 1) ;;
                Done true).
  { apply (compare_agree at_a at_b
             (fun j => load (holding around_sv sv) (size sv - j - 1))
             (fun j => load (holding around_test test) (size test - j - 1)));
      try (intros; reflexivity); try (unfold size; lia).
    - intros j; unfold at_a; simpl; do 2 f_equal; lia.
    - intros j; unfold at_b; simpl; do 2 f_equal; lia.
    - intros j k; simpl.
      destruct (j =? k) eqn:A; [apply Z.eqb_eq in A; subst; apply Z.eqb_refl|].
      apply Z.eqb_neq in A; apply Z.eqb_neq; lia.
    - intros j Hj.
      destruct (nth_error test (Z.to_nat (size test - j - 1))) as [c|] eqn:N.
      + exists c; unfold load.
        rewrite <- (Z2Nat.id (size test - j - 1)) by lia.
        rewrite (holding_inside around_test test _ c N).
        replace (size sv - j - 1)
          with (Z.of_nat (length l + Z.to_nat (size test - j - 1)))
          by (unfold size in *; lia).
        rewrite (holding_inside around_sv sv _ c); [now split|].
        rewrite E, nth_error_app2 by lia.
        now replace (length l + Z.to_nat (size test - j - 1) - length l)%nat
          with (Z.to_nat (size test - j - 1)) by lia.
      + apply nth_error_None in N; unfold size in *; lia.
    - exact test_nonempty. }
  unfold at_a, at_b in C; rewrite !Z.sub_0_r, Z.sub_diag in C; rewrite C.
  unfold load; rewrite (holding_outside around_test test) by lia.
  now replace (size test - size test - 1) with (- 1) by lia.
Qed.
End Comparisons.

(** ** The fixed-width chunker *)

Section Chunker.
Variable sv : list byte.
Variables character_count skip step : Z.
Hypothesis step_sum : step = character_count + skip.
Hypothesis count_pos : 0 < character_count.
Hypothesis skip_nonneg : 0 <= skip.
Hypothesis step_fits : character_count + skip < modulus.
Hypothesis sv_fits : 2 * size sv <= modulus.

Lemma chunk_loop fuel :
  forall k v,
    Z.of_nat k * step < size sv + step ->
    (Z.to_nat (size sv - Z.of_nat k * step) < fuel)%nat ->
    exists n,
      (k <= n)%nat
      /\ while fuel (when (fun '(i, _) => i <? size sv))
           (ascii.chunk_step sv character_count skip) (Z.of_nat k * step, v)
         = Done (Z.of_nat n * step,
                 v ++ map (chunk_at character_count step (size sv)) (seq k (n - k)))
      /\ size sv <= Z.of_nat n * step
      /\ (forall j, (k <= j < n)%nat -> Z.of_nat j * step < size sv).
Proof.
  assert (Hstep : 0 < step) by lia.
  induction fuel as [|fuel IH]; intros k v Hk Hf; [lia|].
  cbn [while]; unfold when at 1; cbn [bind].
  destruct (Z.of_nat k * step <? size sv) eqn:C.
  - apply Z.ltb_lt in C.
    assert (Hk0 : 0 <= Z.of_nat k * step) by nia.
    assert (Hnext : Z.of_nat k * step + step < modulus).
    { destruct k as [|k]; [simpl; lia|].
      assert (step <= Z.of_nat (S k) * step) by nia; lia. }
    cbn [ascii.chunk_step]; rewrite substr_ok by lia; cbn [bind].
    rewrite <- step_sum, (wrap_small step), wrap_small by lia.
    replace (Z.of_nat k * step + step) with (Z.of_nat (S k) * step) by lia.
    destruct (IH (S k) (v ++ [chunk_at character_count step (size sv) k]))
      as (n & Hn & W & Hend & Hin); [lia | lia |].
    exists n; split; [lia|]; split; [|split; [exact Hend|]].
    + unfold chunk_at at 1 in W; rewrite W, <- app_assoc; do 3 f_equal.
      replace (n - k)%nat with (S (n - S k)) by lia; reflexivity.
    + intros j Hj; destruct (Nat.eq_dec j k) as [->|]; [exact C | apply Hin; lia].
  - apply Z.ltb_ge in C; exists k; split; [lia|]; split; [|split; [exact C | lia]].
    now rewrite Nat.sub_diag, app_nil_r.
Qed.

Lemma chunker_chunks fuel :
  (length sv < fuel)%nat ->
  exists n,
    ascii.split fuel sv character_count skip
    = Done (map (chunk_at character_count step (size sv)) (seq 0 n))
    /\ size sv <= Z.of_nat n * step
    /\ (forall j, (j < n)%nat -> Z.of_nat j * step < size sv)
    /\ (forall j, (S j < n)%nat ->
          chunk_at character_count step (size sv) j
          = View (Z.of_nat j * step) character_count).
Proof.
  intros Hf; unfold ascii.split.
  replace (character_count =? 0) with false by (symmetry; apply Z.eqb_neq; lia).
  pose proof (size_nonneg sv) as Hs.
  destruct (chunk_loop fuel 0 []) as (n & _ & W & Hend & Hin).
  - simpl; lia.
  - simpl; unfold size; lia.
  - exists n; simpl in W; rewrite W; cbn [bind]; rewrite Nat.sub_0_r.
    split; [reflexivity|]; split; [exact Hend|]; split.
    + intros j Hj; apply Hin; lia.
    + intros j Hj; unfold chunk_at; f_equal.
      assert (Z.of_nat (S j) * step < size sv) by (apply Hin; lia).
      lia.
Qed.
End Chunker.

(** ** Single-byte tokens *)

Lemma occurs_single c s : occurs_in [c] s <-> In c s.
Proof.
  split.
  - intros (l & r & ->); apply in_or_app; right; now left.
  - intros I; apply in_split in I as (l & r & ->); now exists l, r.
Qed.

Lemma in_weave c sep qs last :
  In c (weave sep qs last) -> In c sep \/ Exists (In c) qs \/ In c last.
Proof.
  induction qs as [|q qs IH]; simpl; [auto|].
  intros I; apply in_app_or in I as [I|I]; [right; left; now constructor|].
  apply in_app_or in I as [I|I]; [now left|].
  destruct (IH I) as [J|[J|J]]; auto.
Qed.

Lemma weave_without_byte c replacement qs last :
  ~ occurs_in [c] replacement ->
  Forall (fun q => ~ occurs_in [c] q) qs -> ~ occurs_in [c] last ->
  ~ occurs_in [c] (weave replacement qs last).
Proof.
  intros HR Hq Hl O; apply occurs_single in O.
  destruct (in_weave _ _ _ _ O) as [I|[I|I]].
  - now apply HR, occurs_single.
  - apply Exists_exists in I as (q & Iq & Ic).
    rewrite Forall_forall in Hq; now apply (Hq q Iq), occurs_single.
  - now apply Hl, occurs_single.
Qed.

(** ** More fuel and an undersized buffer *)







(** ** The concrete cases of the header and of the specification *)

Example split_keeps_empty_parts :
  split_copy 7 (str "a,b,,c") (str ",") true
  = Done [str "a"; str "b"; str ""; str "c"].
Proof. reflexivity. Qed.

Example split_ignores_empty_parts :
  split_copy 7 (str "a,b,,c") (str ",") false = Done [str "a"; str "b"; str "c"].
Proof. reflexivity. Qed.

Example replace_each_match :
  replace 7 (str "abcabc") (str "b") (str "XY") = Done (str "aXYcaXYc").
Proof. reflexivity. Qed.

Example split_first_key_value :
  split_first_copy (str "key=value=1") (str "=") = Done (str "key", str "value=1").
Proof. reflexivity. Qed.

Example split_first_without_match :
  split_first (str "abc") (str "x") = Done (View 0 3, Null).
Proof. reflexivity. Qed.

Example starts_with_mismatch_stays_inside :
  starts_with bare bare 4 (str "abc") (str "abd") = Done false
  /\ ends_with bare bare 4 (str "abc") (str "xc") = Done false.
Proof. split; reflexivity. Qed.

(** * The claims *)

(** C2.  For a non-empty token and a subject of representable size,
    [split(S, T, true)] returns; the views it returns number one more than
    the non-overlapping occurrences of [T] in [S], they lie in [S] from left
    to right, and their bytes joined by [T] are [S]. *)
Theorem split_keep_empty_round_trip (sv token : list byte) (fuel : nat) :
  token <> [] -> size sv < npos -> (length sv < fuel)%nat ->
  exists parts,
    split fuel sv token true = Done parts
    /\ length parts = S (count_nonoverlapping_occurrences sv token)
    /\ in_document_order 0 parts
    /\ join token (map (text sv) parts) = sv.
Proof.
  intros Ht Hs Hf; destruct (pieces_total token Ht sv) as (qs & last & P).
  exists (layout (size token) 0 (qs ++ [last])); repeat split.
  - unfold split; rewrite (split_keep_empty_pieces sv token Ht Hs qs last fuel P Hf).
    unfold emplace, Part_string_view; now rewrite map_id.
  - rewrite length_layout, length_app, (pieces_count token Ht _ _ _ P); simpl.
    unfold count_nonoverlapping_occurrences; lia.
  - apply layout_in_order; [apply size_nonneg | lia].
  - rewrite (text_layout sv token qs last 0), join_weave; try lia;
      now rewrite (pieces_weave _ _ _ _ P).
Qed.

Lemma split_keep_empty_round_trip_witness :
  let sv := str "a,b,,c" in
  let token := str "," in
  (token <> [] /\ size sv < npos /\ (length sv < 7)%nat)
  /\ exists parts,
       split 7 sv token true = Done parts
       /\ length parts = S (count_nonoverlapping_occurrences sv token)
       /\ in_document_order 0 parts
       /\ join token (map (text sv) parts) = sv.
Proof.
  intros sv token; split.
  - split; [discriminate | split; [reflexivity | simpl; lia]].
  - apply (split_keep_empty_round_trip sv token 7);
      [discriminate | reflexivity | simpl; lia].
Defined.

(** C8.  No element of [split_copy(S, T, false)] is empty, for every
    subject and every token; and for a non-empty token and a subject of
    representable size the call does return. *)
Theorem split_copy_ignore_empty_parts_nonempty (sv token : list byte) :
  (forall fuel parts,
      split_copy fuel sv token false = Done parts -> Forall nonempty parts)
  /\ (token <> [] -> size sv < npos ->
      forall fuel, (length sv < fuel)%nat ->
        exists parts, split_copy fuel sv token false = Done parts).
Proof.
  split.
  - intros fuel parts; apply split_ignore_empty_nonempty.
  - intros Ht Hs fuel Hf; rewrite split_copy_split.
    destruct (split_returns sv token false fuel Ht Hs Hf) as [views ->].
    now eexists.
Qed.

Lemma split_copy_ignore_empty_parts_nonempty_witness :
  split_copy 7 (str "a,b,,c") (str ",") false = Done [str "a"; str "b"; str "c"]
  /\ Forall nonempty [str "a"; str "b"; str "c"].
Proof.
  split; [reflexivity|].
  apply (proj1 (split_copy_ignore_empty_parts_nonempty (str "a,b,,c") (str ",")) 7%nat).
  reflexivity.
Defined.

(** C10.  For a non-empty token, either policy and a subject of
    representable size, [split] and [split_copy] both return and the strings
    of [split_copy] are the bytes of the views of [split], one by one;
    [split_first_copy] returns the bytes of the two views of [split_first]. *)
Theorem copy_variants_agree (sv token : list byte) (keep_empty_parts : bool)
    (fuel : nat) :
  token <> [] -> size sv < npos -> (length sv < fuel)%nat ->
  exists views a b,
    split fuel sv token keep_empty_parts = Done views
    /\ split_copy fuel sv token keep_empty_parts = Done (map (text sv) views)
    /\ split_first sv token = Done (a, b)
    /\ split_first_copy sv token = Done (text sv a, text sv b).
Proof.
  intros Ht Hs Hf.
  destruct (split_returns sv token keep_empty_parts fuel Ht Hs Hf) as [views E].
  destruct (split_first_returns sv token) as (a & b & E').
  exists views, a, b; repeat split; auto.
  - now rewrite split_copy_split, E.
  - now rewrite split_first_copy_split_first, E'.
Qed.

Lemma copy_variants_agree_witness :
  let sv := str "key=value=1" in
  let token := str "=" in
  (token <> [] /\ size sv < npos /\ (length sv < 12)%nat)
  /\ exists views a b,
       split 12 sv token false = Done views
       /\ split_copy 12 sv token false = Done (map (text sv) views)
       /\ split_first sv token = Done (a, b)
       /\ split_first_copy sv token = Done (text sv a, text sv b).
Proof.
  intros sv token; split.
  - split; [discriminate | split; [reflexivity | simpl; lia]].
  - apply (copy_variants_agree sv token false 12);
      [discriminate | reflexivity | simpl; lia].
Defined.




(** C3, as stated, fails: the replacement [""] does not contain ["ab"], and
    replacing ["ab"] in ["aabb"] leaves ["ab"]. *)
Lemma replace_can_leave_search_token :
  str "ab" <> []
  /\ ~ occurs_in (str "ab") (str "")
  /\ replace 5 (str "aabb") (str "ab") (str "") = Done (str "ab")
  /\ occurs_in (str "ab") (str "ab").
Proof.
  split; [discriminate|]; split; [now apply first_occurrence_none|].
  split; [reflexivity | now exists [], []].
Qed.

(** C3, amended.  For a non-empty search token, with the subject and the
    output of representable size, [replace(S, T, R)] returns the spans of [S]
    between the non-overlapping left-to-right matches of [T] (the scan
    [pieces]: each span ends where the leftmost occurrence of [T] in the rest
    of [S] begins), in order, with a copy of [R] where each match was; neither
    a span nor the tail contains [T]; and when [T] is a single byte that [R]
    does not contain, the output contains no occurrence of [T]. *)
Theorem replace_spans_without_token (sv search_token replace_token : list byte)
    (fuel : nat) :
  let n := Z.of_nat (count_nonoverlapping_occurrences sv search_token) in
  search_token <> [] -> size sv < npos ->
  size sv - n * size search_token + n * size replace_token < modulus ->
  (length sv < fuel)%nat ->
  exists qs last,
    pieces search_token sv qs last
    /\ sv = weave search_token qs last
    /\ replace fuel sv search_token replace_token = Done (weave replace_token qs last)
    /\ Forall (fun q => ~ occurs_in search_token q) qs
    /\ ~ occurs_in search_token last
    /\ (size search_token = 1 -> ~ occurs_in search_token replace_token ->
        ~ occurs_in search_token (weave replace_token qs last)).
Proof.
  intros n Ht Hs Hlen Hf.
  destruct (pieces_total search_token Ht sv) as (qs & last & P).
  pose proof (replace_output_size search_token replace_token sv qs last Ht P) as E.
  destruct (pieces_clean search_token Ht _ _ _ P) as [C1 C2].
  subst n; cbv zeta in E; exists qs, last.
  split; [exact P|]; split; [symmetry; now apply pieces_weave|].
  split; [apply replace_pieces; auto; now rewrite E|].
  split; [exact C1|]; split; [exact C2|].
  intros H1 HR; destruct search_token as [|c [|c' t]];
    [congruence | | exfalso; unfold size in H1; simpl in H1; lia].
  now apply weave_without_byte.
Qed.

Lemma replace_spans_without_token_witness :
  let sv := str "aabb" in
  let search_token := str "ab" in
  let replace_token := str "" in
  (search_token <> [] /\ size sv < npos /\ 4 - 1 * 2 + 1 * 0 < modulus
   /\ (length sv < 5)%nat)
  /\ exists qs last,
       pieces search_token sv qs last
       /\ sv = weave search_token qs last
       /\ replace 5 sv search_token replace_token = Done (weave replace_token qs last)
       /\ Forall (fun q => ~ occurs_in search_token q) qs
       /\ ~ occurs_in search_token last
       /\ (size search_token = 1 -> ~ occurs_in search_token replace_token ->
           ~ occurs_in search_token (weave replace_token qs last)).
Proof.
  intros sv search_token replace_token; split.
  - split; [discriminate | split; [reflexivity | split; [reflexivity | simpl; lia]]].
  - apply (replace_spans_without_token sv search_token replace_token 5);
      [discriminate | reflexivity | reflexivity | simpl; lia].
Defined.

(** C5.  With an empty token [split], [split_copy] and [replace] never
    return: [find] reports a match of length zero at offset 0 again and
    again, whatever the subject and however much fuel there is. *)
Theorem empty_token_never_returns (sv replace_token : list byte)
    (keep_empty_parts : bool) (fuel : nat) :
  split fuel sv [] keep_empty_parts = OutOfFuel
  /\ split_copy fuel sv [] keep_empty_parts = OutOfFuel
  /\ replace fuel sv [] replace_token = OutOfFuel.
Proof.
  split; [apply split_empty_token|]; split.
  - now rewrite split_copy_split, split_empty_token.
  - unfold replace; now rewrite replace_scan_empty_token.
Qed.

(** C6, as stated, fails at the empty token: [replace("abc", "", "")] does
    not return ["abc"], it does not return at all. *)
Lemma replace_identity_fails_on_empty_token :
  ~ exists fuel, replace fuel (str "abc") (str "") (str "") = Done (str "abc").
Proof.
  intros [fuel E]; unfold replace in E.
  change (str "") with (@nil byte) in E.
  now rewrite replace_scan_empty_token in E.
Qed.

(** C6, amended.  For every subject of representable size and every
    non-empty token, [replace(S, T, T)] returns [S]. *)
Theorem replace_identity (sv token : list byte) (fuel : nat) :
  token <> [] -> size sv < npos -> (length sv < fuel)%nat ->
  replace fuel sv token token = Done sv.
Proof.
  intros Ht Hs Hf.
  destruct (pieces_total token Ht sv) as (qs & last & P).
  pose proof (pieces_weave _ _ _ _ P) as W.
  rewrite (replace_pieces sv token token Ht Hs qs last fuel P Hf); rewrite W;
    [reflexivity | pose proof modulus_eq; lia].
Qed.

Lemma replace_identity_witness :
  (str "b" <> [] /\ size (str "abcabc") < npos /\ (length (str "abcabc") < 7)%nat)
  /\ replace 7 (str "abcabc") (str "b") (str "b") = Done (str "abcabc").
Proof.
  split.
  - split; [discriminate | split; [reflexivity | simpl; lia]].
  - apply (replace_identity (str "abcabc") (str "b") 7);
      [discriminate | reflexivity | simpl; lia].
Defined.

(** C4.  The walk of [compare] does leave [test]: whenever [test] is a
    prefix of [sv], [starts_with] dereferences the iterator [last], one past
    the end of [test], and whenever [test] is a suffix of [sv], [ends_with]
    dereferences [rend(test)], before its first byte.  With indexing that
    returns an option outside [test] the out-of-bounds branch is taken. *)
Theorem compare_reads_outside_test (around_sv : memory) (sv test : list byte)
    (fuel : nat) :
  0 < size test <= size sv -> (length test < fuel)%nat ->
  (is_prefix test sv = true ->
   starts_with around_sv bare fuel sv test = Raise out_of_bounds)
  /\ (is_prefix (rev test) (rev sv) = true ->
      ends_with around_sv bare fuel sv test = Raise out_of_bounds).
Proof.
  intros [Ht Hs] Hf; split; intros P; apply is_prefix_iff in P as [r E].
  - rewrite (starts_with_prefix around_sv bare sv test Ht fuel r E Hf).
    unfold load; now destruct (holding around_sv sv (size test)).
  - assert (E' : sv = rev r ++ test).
    { rewrite <- (rev_involutive sv), E, rev_app_distr; now rewrite rev_involutive. }
    rewrite (ends_with_suffix around_sv bare sv test Ht fuel (rev r) E' Hf).
    unfold load; now destruct (holding around_sv sv (size sv - size test - 1)).
Qed.

Lemma compare_reads_outside_test_witness :
  (0 < size (str "ab") <= size (str "abc") /\ (length (str "ab") < 3)%nat
   /\ is_prefix (str "ab") (str "abc") = true)
  /\ starts_with bare bare 3 (str "abc") (str "ab") = Raise out_of_bounds.
Proof.
  split.
  - split; [unfold size; simpl; lia | split; [simpl; lia | reflexivity]].
  - apply (compare_reads_outside_test bare (str "abc") (str "ab") 3);
      [unfold size; simpl; lia | simpl; lia | reflexivity].
Defined.

(** C7.  On [(S, S)] with a non-empty [S] the walk of [compare] leaves both
    views before it answers: [starts_with(S, S)] dereferences the end
    iterators of [sv] and of [test], [ends_with(S, S)] their [rend].  With
    nothing readable outside [test] neither call returns [true]: the access
    is out of bounds, whatever lies around [sv]. *)
Theorem comparator_self_test_leaves_views (around_sv : memory) (S : list byte)
    (fuel : nat) :
  S <> [] -> (length S < fuel)%nat ->
  starts_with around_sv bare fuel S S = Raise out_of_bounds
  /\ ends_with around_sv bare fuel S S = Raise out_of_bounds.
Proof.
  intros Hn Hf.
  assert (Hs : 0 < size S).
  { pose proof (size_nonneg S); destruct (Z.eq_dec (size S) 0) as [Z0|]; [|lia].
    apply size_nil_iff in Z0; congruence. }
  split.
  - rewrite (starts_with_prefix around_sv bare S S Hs fuel [])
      by (auto using app_nil_r).
    unfold load; now destruct (holding around_sv S (size S)).
  - rewrite (ends_with_suffix around_sv bare S S Hs fuel []) by auto.
    unfold load; now destruct (holding around_sv S (size S - size S - 1)).
Qed.

Lemma comparator_self_test_leaves_views_witness :
  (str "a" <> [] /\ (length (str "a") < 2)%nat)
  /\ starts_with bare bare 2 (str "a") (str "a") = Raise out_of_bounds
  /\ ends_with bare bare 2 (str "a") (str "a") = Raise out_of_bounds.
Proof.
  split; [split; [discriminate | simpl; lia]|].
  apply (comparator_self_test_leaves_views bare (str "a") 2);
    [discriminate | simpl; lia].
Defined.

(** The guards and the value of the self test.  [starts_with] and
    [ends_with] answer [false] when [sv] is empty, when [test] is empty and
    when [test] is longer than [sv]; for a non-empty [S] they answer [true]
    on [(S, S)], whatever the bytes next to the two views are, as long as
    those bytes can be read. *)
Theorem comparator_policy (around_sv around_test : memory) (fuel : nat) :
  (forall sv test,
      sv = [] \/ test = [] \/ size sv < size test ->
      starts_with around_sv around_test fuel sv test = Done false
      /\ ends_with around_sv around_test fuel sv test = Done false)
  /\ (forall S,
         S <> [] -> (length S < fuel)%nat ->
         readable around_sv (size S) -> readable around_test (size S) ->
         readable around_sv (- 1) -> readable around_test (- 1) ->
         starts_with around_sv around_test fuel S S = Done true
         /\ ends_with around_sv around_test fuel S S = Done true).
Proof.
  split.
  - intros sv test Hc; unfold starts_with, ends_with, empty.
    assert (G : (size sv =? 0) || (size test =? 0) || (size sv <? size test) = true).
    { destruct Hc as [-> | [-> | Hlt]].
      - reflexivity.
      - simpl; now rewrite orb_true_r.
      - apply Z.ltb_lt in Hlt; rewrite Hlt; now rewrite orb_true_r. }
    now rewrite G.
  - intros S Hn Hf Ha Hb Ha' Hb'; unfold readable in *.
    assert (Hs : 0 < size S).
    { pose proof (size_nonneg S); destruct (Z.eq_dec (size S) 0) as [Z0|]; [|lia].
      apply size_nil_iff in Z0; congruence. }
    split.
    + rewrite (starts_with_prefix around_sv around_test S S Hs fuel [])
        by (auto using app_nil_r).
      unfold load; rewrite holding_outside by lia.
      destruct (around_sv (size S)); [|congruence].
      now destruct (around_test (size S)); [|congruence].
    + rewrite (ends_with_suffix around_sv around_test S S Hs fuel []) by auto.
      unfold load; rewrite holding_outside by lia.
      replace (size S - size S - 1) with (- 1) by lia.
      destruct (around_sv (- 1)); [|congruence].
      now destruct (around_test (- 1)); [|congruence].
Qed.

Lemma comparator_policy_witness :
  let around := fun _ : Z => Some x00 in
  (str "abc" <> [] /\ (length (str "abc") < 4)%nat
   /\ readable around 3 /\ readable around (- 1))
  /\ starts_with around around 4 (str "abc") (str "abc") = Done true
  /\ ends_with around around 4 (str "abc") (str "abc") = Done true.
Proof.
  intros around; split.
  - split; [discriminate | split; [simpl; lia | split; discriminate]].
  - apply (proj2 (comparator_policy around around 4) (str "abc"));
      try discriminate; simpl; lia.
Defined.

(** C9, as stated, fails when [character_count + skip] wraps around: with
    [character_count = 1] and [skip = 2^64 - 1] the cursor advances by 0 and
    the chunker never returns on ["a"]; with [character_count = 2^64 - 1] and
    [skip = 2] it advances by 1 and the chunks of ["abc"] overlap, none of
    them [character_count] bytes long. *)
Lemma chunker_overflow_never_returns :
  (~ exists fuel v, ascii.split fuel (str "a") 1 npos = Done v)
  /\ ascii.split 4 (str "abc") npos 2 = Done [View 0 3; View 1 2; View 2 1].
Proof.
  split; [|reflexivity].
  intros (fuel & v & E); unfold ascii.split in E; cbn [Z.eqb] in E.
  rewrite (while_diverges (fun '(i, _) => i = 0)) in E; [discriminate | | reflexivity].
  intros [i w] ->; eexists _, _; split; [reflexivity|].
  split; reflexivity.
Qed.

(** C9, amended.  The chunker returns the empty sequence when
    [character_count] is 0.  Otherwise, when [character_count + skip] does
    not exceed the largest [size_t] and the subject has at most [2^63]
    bytes, it returns the chunks at the cursors [0], [step], [2 * step], ...
    below [size], [step = character_count + skip]; each has up to
    [character_count] bytes and only the last can be shorter.  The two
    examples of the header are as given. *)
Theorem chunker_without_overflow (sv : list byte) (character_count skip : Z)
    (fuel : nat) :
  ascii.split fuel sv 0 skip = Done []
  /\ (0 < character_count -> 0 <= skip -> character_count + skip < modulus ->
      2 * size sv <= modulus -> (length sv < fuel)%nat ->
      let step := character_count + skip in
      exists n,
        ascii.split fuel sv character_count skip
        = Done (map (chunk_at character_count step (size sv)) (seq 0 n))
        /\ size sv <= Z.of_nat n * step
        /\ (forall j, (j < n)%nat -> Z.of_nat j * step < size sv)
        /\ (forall j, (S j < n)%nat ->
              chunk_at character_count step (size sv) j
              = View (Z.of_nat j * step) character_count))
  /\ omap (map (text (str "abcdef123"))) (ascii.split 10 (str "abcdef123") 3 0)
     = Done [str "abc"; str "def"; str "123"]
  /\ omap (map (text (str "abc,def,123"))) (ascii.split 12 (str "abc,def,123") 3 1)
     = Done [str "abc"; str "def"; str "123"].
Proof.
  split; [reflexivity|]; split; [|split; reflexivity].
  intros Hc Hk Hstep Hs Hf step; now apply chunker_chunks.
Qed.

Lemma chunker_without_overflow_witness :
  let sv := str "abc,def,123" in
  (0 < 3 /\ 0 <= 1 /\ 3 + 1 < modulus /\ 2 * size sv <= modulus
   /\ (length sv < 12)%nat)
  /\ exists n,
       ascii.split 12 sv 3 1 = Done (map (chunk_at 3 4 (size sv)) (seq 0 n))
       /\ size sv <= Z.of_nat n * 4
       /\ (forall j, (j < n)%nat -> Z.of_nat j * 4 < size sv)
       /\ (forall j, (S j < n)%nat ->
             chunk_at 3 4 (size sv) j = View (Z.of_nat j * 4) 3).
Proof.
  intros sv; split.
  - repeat (split; [unfold modulus; simpl; lia|]); simpl; lia.
  - apply (proj1 (proj2 (chunker_without_overflow sv 3 1 12)));
      try (unfold modulus; simpl; lia).
Defined.

(** * Further properties of the code *)

(** ** Case mapping *)

Lemma load_middle l c r : load (holding bare (l ++ c :: r)) (size l) = Done c.
Proof.
  unfold load, size; rewrite (holding_inside bare _ (length l) c); [reflexivity|].
  now rewrite nth_error_app2, Nat.sub_diag by lia.
Qed.

Lemma assign_middle l c r x : assign (l ++ c :: r) (size l) x = l ++ x :: r.
Proof.
  unfold assign, size; rewrite Nat2Z.id.
  rewrite firstn_app, firstn_all, Nat.sub_diag, firstn_O, app_nil_r.
  replace (length l + 1)%nat with (length (l ++ [c])) by (rewrite length_app; reflexivity).
  change (l ++ c :: r) with (l ++ [c] ++ r).
  now rewrite app_assoc, skipn_app, skipn_all, Nat.sub_diag.
Qed.

Section Transform.
Variable func : byte -> byte.
Variable stop : Z.

(** The loop over a stretch [m] of the string that does not contain [stop]. *)
Lemma transform_loop m r :
  forall l fuel,
    (forall j, size l <= j < size l + size m -> j <> stop) ->
    while (length m + fuel) (when (fun '(_, start) => negb (start =? stop)))
      (detail.transform_step func) (l ++ m ++ r, size l)
    = while fuel (when (fun '(_, start) => negb (start =? stop)))
        (detail.transform_step func) (l ++ map func m ++ r, size l + size m).
Proof.
  induction m as [|c m IH]; intros l fuel Hj.
  - simpl; now rewrite Z.add_0_r.
  - cbn [length Nat.add while]; unfold when at 1; cbn [bind].
    pose proof (size_nonneg m) as Hm.
    assert (Hc : size (c :: m) = 1 + size m) by (unfold size; simpl length; lia).
    destruct (size l =? stop) eqn:E.
    { apply Z.eqb_eq in E; exfalso; apply (Hj (size l)); [lia | exact E]. }
    cbn [negb detail.transform_step]; cbn [app].
    rewrite load_middle; cbn [bind]; rewrite assign_middle.
    change (l ++ func c :: m ++ r) with (l ++ [func c] ++ m ++ r).
    rewrite app_assoc.
    replace (size l + 1) with (size (l ++ [func c])) by (rewrite size_app; reflexivity).
    rewrite IH.
    + rewrite size_app, <- app_assoc, Hc; cbn [map app]; do 2 f_equal.
      change (size [func c]) with 1; lia.
    + intros j Hjj; apply Hj; rewrite size_app in Hjj; change (size [func c]) with 1 in Hjj.
      lia.
Qed.
End Transform.

Lemma transform_range func l m r fuel :
  (length m < fuel)%nat ->
  detail.transform fuel (l ++ m ++ r) (size l) (size l + size m) func
  = Done (l ++ map func m ++ r).
Proof.
  intros Hf; unfold detail.transform.
  replace fuel with (length m + (fuel - length m))%nat by lia.
  rewrite transform_loop by (intros; lia).
  destruct (fuel - length m)%nat as [|k] eqn:K; [lia|].
  cbn [while]; unfold when; cbn [bind]; now rewrite Z.eqb_refl.
Qed.

Lemma transform_past_the_end func l m stop fuel :
  size l + size m < stop -> (length m < fuel)%nat ->
  detail.transform fuel (l ++ m) (size l) stop func = Raise out_of_bounds.
Proof.
  intros Hs Hf; unfold detail.transform.
  replace (l ++ m) with (l ++ m ++ []) by now rewrite app_nil_r.
  replace fuel with (length m + (fuel - length m))%nat by lia.
  rewrite transform_loop by (intros; lia).
  destruct (fuel - length m)%nat as [|k] eqn:K; [lia|].
  cbn [while]; unfold when; cbn [bind].
  pose proof (size_nonneg l); pose proof (size_nonneg m).
  replace (size l + size m =? stop) with false by (symmetry; apply Z.eqb_neq; lia).
  cbn [negb detail.transform_step]; unfold load.
  rewrite holding_outside; [reflexivity|].
  right; rewrite !size_app; unfold size; simpl; rewrite length_map; lia.
Qed.

Lemma as_case_loop (f : byte -> byte) sv :
  forall acc, for_each sv (fun s c => Done (s ++ [f c])) acc = Done (acc ++ map f sv).
Proof.
  induction sv as [|c sv IH]; intros acc; simpl; [now rewrite app_nil_r|].
  now rewrite IH, <- app_assoc.
Qed.

(** X1.  [transform] over the range [[start, stop)] of a string replaces
    each byte of the range by its image under [func] and leaves the bytes
    before and after the range as they were; when [stop] lies beyond the end
    of the string the walk leaves the string. *)
Theorem transform_maps_the_range (func : byte -> byte) (l m r : list byte)
    (fuel : nat) :
  (length m < fuel)%nat ->
  detail.transform fuel (l ++ m ++ r) (size l) (size l + size m) func
  = Done (l ++ map func m ++ r)
  /\ (forall stop, size (l ++ m ++ r) < stop ->
      (length (m ++ r) < fuel)%nat ->
      detail.transform fuel (l ++ m ++ r) (size l) stop func = Raise out_of_bounds).
Proof.
  intros Hf; split; [now apply transform_range|].
  intros stop Hs Hf'; apply transform_past_the_end; [|exact Hf'].
  now rewrite size_app in Hs.
Qed.

Lemma transform_maps_the_range_witness :
  (length (str "MiX") < 4)%nat
  /\ detail.transform 4 (str "aMiXed") 1 4 c_tolower = Done (str "amixed").
Proof.
  split; [simpl; lia|].
  apply (proj1 (transform_maps_the_range c_tolower (str "a") (str "MiX") (str "ed") 4
                  ltac:(simpl; lia))).
Defined.

(** X2.  [to_upper] leaves in the string what [as_upper] returns for it:
    the same number of bytes, each the image of the original byte under
    [toupper]; likewise [to_lower] and [as_lower] with [tolower]. *)
Theorem case_mapping_in_place_and_copy (toupper tolower : byte -> byte)
    (s : list byte) (fuel : nat) :
  (length s < fuel)%nat ->
  ascii.to_upper toupper fuel s = Done (map toupper s)
  /\ ascii.as_upper toupper s = Done (map toupper s)
  /\ ascii.to_lower tolower fuel s = Done (map tolower s)
  /\ ascii.as_lower tolower s = Done (map tolower s)
  /\ length (map toupper s) = length s.
Proof.
  intros Hf; unfold ascii.to_upper, ascii.to_lower, ascii.as_upper, ascii.as_lower.
  rewrite !as_case_loop; cbn [app].
  pose proof (transform_range toupper [] s [] fuel Hf) as U.
  pose proof (transform_range tolower [] s [] fuel Hf) as L.
  rewrite !app_nil_r in U, L; cbn [app] in U, L.
  change (size []) with 0 in U, L; rewrite Z.add_0_l in U, L.
  now rewrite U, L, length_map.
Qed.

Lemma case_mapping_in_place_and_copy_witness :
  (length (str "MiXeD") < 6)%nat
  /\ ascii.to_upper c_toupper 6 (str "MiXeD") = Done (str "MIXED")
  /\ ascii.as_lower c_tolower (str "MiXeD") = Done (str "mixed").
Proof.
  split; [simpl; lia|].
  destruct (case_mapping_in_place_and_copy c_toupper c_tolower (str "MiXeD") 6)
    as (U & _ & _ & L & _); [simpl; lia|].
  split; [exact U | exact L].
Defined.

(** X3.  When lowering undoes nothing that raising did
    ([tolower (toupper c) = tolower c] for every byte, as in the "C"
    locale), [as_lower] of the result of [as_upper] is [as_lower] of the
    original, and a second [as_upper] changes nothing when [toupper] is
    idempotent. *)
Theorem case_mapping_composes (toupper tolower : byte -> byte) (s : list byte) :
  (forall c, tolower (toupper c) = tolower c) ->
  (forall c, toupper (toupper c) = toupper c) ->
  (u <- ascii.as_upper toupper s ;; ascii.as_lower tolower u)
  = ascii.as_lower tolower s
  /\ (u <- ascii.as_upper toupper s ;; ascii.as_upper toupper u)
     = ascii.as_upper toupper s.
Proof.
  intros Hlu Huu; unfold ascii.as_upper, ascii.as_lower.
  rewrite !as_case_loop; cbn [bind app]; rewrite !as_case_loop; cbn [app].
  rewrite !map_map; split; f_equal; apply map_ext; auto.
Qed.

Lemma case_mapping_composes_witness :
  ((forall c, c_tolower (c_toupper c) = c_tolower c)
   /\ (forall c, c_toupper (c_toupper c) = c_toupper c))
  /\ (u <- ascii.as_upper c_toupper (str "MiXeD") ;; ascii.as_lower c_tolower u)
     = ascii.as_lower c_tolower (str "MiXeD").
Proof.
  assert (H1 : forall c, c_tolower (c_toupper c) = c_tolower c)
    by (intros c; destruct c; reflexivity).
  assert (H2 : forall c, c_toupper (c_toupper c) = c_toupper c)
    by (intros c; destruct c; reflexivity).
  split; [now split|].
  exact (proj1 (case_mapping_composes c_toupper c_tolower (str "MiXeD") H1 H2)).
Defined.

(** ** The comparator decides prefixes and suffixes *)

Lemma first_mismatch B :
  forall A,
    is_prefix B A = false -> (length B <= length A)%nat ->
    exists k x y,
      (k < length B)%nat /\ nth_error A k = Some x /\ nth_error B k = Some y
      /\ x <> y
      /\ (forall j, (j < k)%nat ->
            exists c, nth_error A j = Some c /\ nth_error B j = Some c).
Proof.
  induction B as [|y B IH]; intros A P L; [discriminate|].
  destruct A as [|x A]; [simpl in L; lia|]; simpl in P, L.
  destruct (Byte.eqb y x) eqn:E.
  - apply byte_dec_bl in E; subst y; simpl in P.
    destruct (IH A P) as (k & a & b & Hk & Ha & Hb & Hab & Hlow); [lia|].
    exists (S k), a, b; split; [simpl; lia|]; split; [exact Ha|]; split; [exact Hb|].
    split; [exact Hab|].
    intros [|j] Hj; [now exists x | apply Hlow; lia].
  - exists O, x, y; split; [simpl; lia|]; split; [reflexivity|]; split; [reflexivity|].
    split; [|intros j Hj; lia].
    intros ->; now rewrite (byte_dec_lb eq_refl) in E.
Qed.

Section Mismatch.
Context {I : Type} `{Iterator I}.
Variables at_a at_b : Z -> I.
Variables read_a read_b : Z -> outcome byte.
Hypothesis deref_a : forall j, deref (at_a j) = read_a j.
Hypothesis deref_b : forall j, deref (at_b j) = read_b j.
Hypothesis incr_a : forall j, incr (at_a j) = at_a (j + 1).
Hypothesis incr_b : forall j, incr (at_b j) = at_b (j + 1).
Hypothesis same_b : forall j k, same (at_b j) (at_b k) = (j =? k).

(** The ranges agree below position [k] and differ at [k], inside the
    second range of length [n]. *)
Variables n k : Z.
Variables x y : byte.
Hypothesis k_inside : 0 <= k < n.
Hypothesis agree :
  forall j, 0 <= j < k -> exists c, read_a j = Done c /\ read_b j = Done c.
Hypothesis differ_a : read_a k = Done x.
Hypothesis differ_b : read_b k = Done y.
Hypothesis differ : x <> y.

Lemma eqb_differ : Byte.eqb x y = false.
Proof.
  destruct (Byte.eqb x y) eqn:E; [|reflexivity].
  apply byte_dec_bl in E; contradiction.
Qed.

Lemma walk_to_mismatch d :
  forall j fuel,
    0 <= j -> j + 1 + Z.of_nat d = k -> (d < fuel)%nat ->
    while fuel (detail.advance (at_b n)) (fun st => Done st) (at_a j, at_b j)
    = Done (at_a k, at_b k).
Proof.
  induction d as [|d IH]; intros j fuel Hj Hk Hf;
    (destruct fuel as [|fuel]; [lia|]); cbn [while detail.advance];
    rewrite same_b; (destruct (j =? n) eqn:E; [apply Z.eqb_eq in E; lia|]);
    cbn [negb]; rewrite incr_a, incr_b, deref_a, deref_b.
  - replace (j + 1) with k by lia; rewrite differ_a, differ_b; cbn [bind].
    now rewrite eqb_differ.
  - destruct (agree (j + 1)) as (c & -> & ->); [lia|]; cbn [bind].
    rewrite (byte_dec_lb eq_refl); apply (IH (j + 1) fuel); lia.
Qed.

Lemma compare_differ fuel :
  (Z.to_nat k < fuel)%nat ->
  detail.compare fuel (at_a 0) (at_b 0) (at_b n) = Done false.
Proof.
  intros Hf; unfold detail.compare; rewrite deref_a, deref_b.
  destruct (Z.eq_dec k 0) as [K0|K0].
  - rewrite K0 in differ_a, differ_b; rewrite differ_a, differ_b; cbn [bind].
    now rewrite eqb_differ.
  - destruct (agree 0) as (c & -> & ->); [lia|]; cbn [bind].
    rewrite (byte_dec_lb eq_refl); cbn [negb].
    rewrite (walk_to_mismatch (Z.to_nat (k - 1)) 0 fuel) by lia; cbn [bind].
    rewrite same_b; destruct (k =? n) eqn:E; [apply Z.eqb_eq in E; lia | reflexivity].
Qed.
End Mismatch.

Lemma forward_read around s j c :
  nth_error s j = Some c -> load (holding around s) (Z.of_nat j) = Done c.
Proof. intros N; unfold load; now rewrite (holding_inside around s j c N). Qed.

Lemma backward_read around s j c :
  nth_error (rev s) j = Some c ->
  load (holding around s) (size s - Z.of_nat j - 1) = Done c.
Proof.
  rewrite nth_error_rev; destruct (Nat.ltb_spec j (length s)) as [L|L]; [|discriminate].
  intros N; replace (size s - Z.of_nat j - 1) with (Z.of_nat (length s - S j))
    by (unfold size; lia).
  now apply forward_read.
Qed.

Lemma load_holding around s k :
  readable around k -> exists c, load (holding around s) k = Done c.
Proof.
  intros R; unfold load, holding, in_range, readable in *.
  destruct (0 <=? k) eqn:A; cbn [andb].
  - destruct (k <? size s) eqn:B.
    + apply Z.leb_le in A; apply Z.ltb_lt in B.
      destruct (nth_error s (Z.to_nat k)) as [c|] eqn:N; [now exists c|].
      apply nth_error_None in N; unfold size in B; lia.
    + destruct (around k) as [c|]; [now exists c | congruence].
  - destruct (around k) as [c|]; [now exists c | congruence].
Qed.

Section Answers.
Variables around_sv around_test : memory.
Variables sv test : list byte.

Lemma starts_with_not_prefix fuel :
  is_prefix test sv = false -> (length test < fuel)%nat ->
  starts_with around_sv around_test fuel sv test = Done false.
Proof.
  intros P Hf; unfold starts_with, empty.
  destruct ((size sv =? 0) || (size test =? 0) || (size sv <? size test)) eqn:G;
    [reflexivity|].
  apply orb_false_iff in G as [G G3]; apply orb_false_iff in G as [G1 G2].
  apply Z.eqb_neq in G1, G2; apply Z.ltb_ge in G3.
  destruct (first_mismatch test sv P) as (k & x & y & Hk & Ha & Hb & Hxy & Hlow);
    [unfold size in G3; lia|].
  unfold begin, end_.
  apply (compare_differ
           (fun j => Ptr (holding around_sv sv) j)
           (fun j => Ptr (holding around_test test) j)
           (load (holding around_sv sv)) (load (holding around_test test)))
    with (k := Z.of_nat k) (x := x) (y := y);
    try (intros; reflexivity); try (unfold size; lia); auto using forward_read.
  intros j Hj; destruct (Hlow (Z.to_nat j)) as (c & Ca & Cb); [lia|].
  exists c; rewrite <- (Z2Nat.id j) by lia; split; now apply forward_read.
Qed.

Lemma ends_with_not_suffix fuel :
  is_prefix (rev test) (rev sv) = false -> (length test < fuel)%nat ->
  ends_with around_sv around_test fuel sv test = Done false.
Proof.
  intros P Hf; unfold ends_with, empty.
  destruct ((size sv =? 0) || (size test =? 0) || (size sv <? size test)) eqn:G;
    [reflexivity|].
  apply orb_false_iff in G as [G G3]; apply orb_false_iff in G as [G1 G2].
  apply Z.eqb_neq in G1, G2; apply Z.ltb_ge in G3.
  destruct (first_mismatch (rev test) (rev sv) P)
    as (k & x & y & Hk & Ha & Hb & Hxy & Hlow);
    [rewrite !length_rev; unfold size in G3; lia|].
  rewrite length_rev in Hk.
  pose (at_a := fun j => Rev (Ptr (holding around_sv sv) (size sv - j))).
  pose (at_b := fun j => Rev (Ptr (holding around_test test) (size test - j))).
  assert (C : detail.compare fuel (at_a 0) (at_b 0) (at_b (size test)) = Done false).
  { apply (compare_differ at_a at_b
             (fun j => load (holding around_sv sv) (size sv - j - 1))
             (fun j => load (holding around_test test) (size test - j - 1)))
      with (k := Z.of_nat k) (x := x) (y := y);
      try (intros; reflexivity); try (unfold size; lia); auto using backward_read.
    - intros j; unfold at_a; simpl; do 2 f_equal; lia.
    - intros j; unfold at_b; simpl; do 2 f_equal; lia.
    - intros j j'; simpl.
      destruct (j =? j') eqn:A; [apply Z.eqb_eq in A; subst; apply Z.eqb_refl|].
      apply Z.eqb_neq in A; apply Z.eqb_neq; lia.
    - intros j Hj; destruct (Hlow (Z.to_nat j)) as (c & Ca & Cb); [lia|].
      exists c; rewrite <- (Z2Nat.id j) by lia; split; now apply backward_read. }
  unfold at_a, at_b in C; rewrite !Z.sub_0_r, Z.sub_diag in C; exact C.
Qed.
End Answers.

Lemma is_suffix_iff test sv :
  is_prefix (rev test) (rev sv) = true <-> exists l, sv = l ++ test.
Proof.
  rewrite is_prefix_iff; split.
  - intros [r E]; exists (rev r).
    rewrite <- (rev_involutive sv), E, rev_app_distr; now rewrite rev_involutive.
  - intros [l ->]; exists (rev l); apply rev_app_distr.
Qed.

(** X4.  A negative answer of [starts_with] or [ends_with] is reached
    without a read outside the two views: whatever lies around them, even
    nothing that can be read, the call returns [false] when [test] is not a
    prefix (suffix) of [sv]. *)
Theorem comparator_false_without_leaving (around_sv around_test : memory)
    (sv test : list byte) (fuel : nat) :
  (length test < fuel)%nat ->
  (is_prefix test sv = false ->
   starts_with around_sv around_test fuel sv test = Done false
   /\ starts_with bare bare fuel sv test = Done false)
  /\ (is_prefix (rev test) (rev sv) = false ->
      ends_with around_sv around_test fuel sv test = Done false
      /\ ends_with bare bare fuel sv test = Done false).
Proof.
  intros Hf; split; intros P; split;
    auto using starts_with_not_prefix, ends_with_not_suffix.
Qed.

Lemma comparator_false_without_leaving_witness :
  ((length (str "abd") < 4)%nat /\ is_prefix (str "abd") (str "abcd") = false)
  /\ starts_with bare bare 4 (str "abcd") (str "abd") = Done false.
Proof.
  split; [split; [simpl; lia | reflexivity]|].
  apply (proj1 (comparator_false_without_leaving bare bare (str "abcd") (str "abd") 4
                  ltac:(simpl; lia))).
  reflexivity.
Defined.

(** X5.  Where the memory around the two views can be read, [starts_with]
    returns [true] exactly when [test] is non-empty and a prefix of [sv],
    and [ends_with] exactly when [test] is non-empty and a suffix of [sv];
    otherwise they return [false]. *)
Theorem comparator_decides (around_sv around_test : memory)
    (sv test : list byte) (fuel : nat) :
  (forall k, readable around_sv k) -> (forall k, readable around_test k) ->
  (length test < fuel)%nat ->
  (exists b, starts_with around_sv around_test fuel sv test = Done b
             /\ (b = true <-> test <> [] /\ exists r, sv = test ++ r))
  /\ (exists b, ends_with around_sv around_test fuel sv test = Done b
                /\ (b = true <-> test <> [] /\ exists l, sv = l ++ test)).
Proof.
  intros Ra Rb Hf; split.
  - destruct (is_prefix test sv) eqn:P.
    + destruct test as [|c test].
      * exists false; split; [unfold starts_with, empty; simpl; now rewrite orb_true_r|].
        split; [discriminate | intros [E _]; congruence].
      * apply is_prefix_iff in P as [r E]; exists true.
        split; [|split; [intros _; split; [discriminate | now exists r] | reflexivity]].
        rewrite (starts_with_prefix around_sv around_test sv (c :: test)
                   ltac:(unfold size; simpl; lia) fuel r E Hf).
        destruct (load_holding around_sv sv (size (c :: test)) (Ra _)) as [a ->].
        unfold load; specialize (Rb (size (c :: test))); unfold readable in Rb.
        now destruct (around_test (size (c :: test))); [|congruence].
    + exists false; split; [now apply starts_with_not_prefix|].
      split; [discriminate | intros [_ R]; apply is_prefix_iff in R; congruence].
  - destruct (is_prefix (rev test) (rev sv)) eqn:P.
    + destruct test as [|c test].
      * exists false; split; [unfold ends_with, empty; simpl; now rewrite orb_true_r|].
        split; [discriminate | intros [E _]; congruence].
      * apply is_suffix_iff in P as [l E]; exists true.
        split; [|split; [intros _; split; [discriminate | now exists l] | reflexivity]].
        rewrite (ends_with_suffix around_sv around_test sv (c :: test)
                   ltac:(unfold size; simpl; lia) fuel l E Hf).
        destruct (load_holding around_sv sv (size sv - size (c :: test) - 1) (Ra _))
          as [a ->].
        unfold load; specialize (Rb (- 1)); unfold readable in Rb.
        now destruct (around_test (- 1)); [|congruence].
    + exists false; split; [now apply ends_with_not_suffix|].
      split; [discriminate | intros [_ R]; apply is_suffix_iff in R; congruence].
Qed.

Lemma comparator_decides_witness :
  let around := fun _ : Z => Some x00 in
  ((forall k, readable around k) /\ (length (str "ab") < 3)%nat)
  /\ (exists b, starts_with around around 3 (str "abc") (str "ab") = Done b
                /\ (b = true <-> str "ab" <> [] /\ exists r, str "abc" = str "ab" ++ r)).
Proof.
  intros around; split; [split; [intros k; discriminate | simpl; lia]|].
  apply (proj1 (comparator_decides around around (str "abc") (str "ab") 3
                  (fun k => ltac:(discriminate)) (fun k => ltac:(discriminate))
                  ltac:(simpl; lia))).
Defined.

(** ** Splitting: policies, parts and first match *)

Lemma occurs_first_occurrence token s :
  occurs_in token s -> exists k, first_occurrence token s = Some k.
Proof.
  intros O; destruct (first_occurrence token s) as [k|] eqn:F; [now exists k|].
  now apply first_occurrence_none in F.
Qed.

Lemma split_copy_keep_pieces sv token qs last fuel :
  token <> [] -> size sv < npos -> pieces token sv qs last ->
  (length sv < fuel)%nat ->
  split_copy fuel sv token true = Done (qs ++ [last]).
Proof.
  intros Ht Hs P Hf; unfold split_copy.
  rewrite (split_keep_empty_pieces sv token Ht Hs qs last fuel P Hf).
  unfold emplace, Part_string; f_equal.
  apply text_layout; [lia | now rewrite (pieces_weave _ _ _ _ P)].
Qed.

Lemma Forall_map_filter {A B} (P : B -> Prop) (f : A -> B) (k : A -> bool) l :
  Forall P (map f l) -> Forall P (map f (filter k l)).
Proof.
  induction l as [|a l IH]; simpl; [auto|].
  intros F; inversion F; subst; destruct (k a); simpl; auto.
Qed.

(** X6.  For a non-empty token, the ignore-empty policy returns the views
    of the keep-empty policy without those of length zero, in the same
    order. *)
Theorem split_ignore_is_keep_filtered (sv token : list byte) (fuel : nat) :
  token <> [] -> size sv < npos -> (length sv < fuel)%nat ->
  exists views,
    split fuel sv token true = Done views
    /\ split fuel sv token false = Done (filter kept views)
    /\ split_copy fuel sv token false
       = Done (filter (fun p => negb (empty p)) (map (text sv) views)).
Proof.
  intros Ht Hs Hf; destruct (pieces_total token Ht sv) as (qs & last & P).
  exists (layout (size token) 0 (qs ++ [last])); unfold split.
  assert (Ek : forall vs : list view, map (emplace sv) vs = vs)
    by (intros vs; unfold emplace, Part_string_view; apply map_id).
  rewrite (split_keep_empty_pieces sv token Ht Hs qs last fuel P Hf), Ek.
  rewrite (split_ignore_empty_pieces sv token Ht Hs qs last fuel P Hf), Ek.
  split; [reflexivity|]; split; [reflexivity|].
  rewrite split_copy_split; unfold split.
  rewrite (split_ignore_empty_pieces sv token Ht Hs qs last fuel P Hf), Ek.
  unfold omap; cbn [bind]; f_equal.
  rewrite (text_layout sv token qs last 0) by (try lia; now rewrite (pieces_weave _ _ _ _ P)).
  pose proof (pieces_weave _ _ _ _ P) as W.
  assert (G : forall ps start,
             0 <= start -> join token ps = skipn (Z.to_nat start) sv ->
             map (text sv) (filter kept (layout (size token) start ps))
             = filter (fun p => negb (empty p)) ps).
  { induction ps as [|p ps IH]; intros start H0 J; [reflexivity|].
    cbn [layout filter kept]; unfold empty.
    assert (Tp : text sv (View start (size p)) = p).
    { destruct ps; simpl in J.
      - simpl; unfold slice, size; now rewrite <- J, Nat2Z.id, firstn_all.
      - simpl; apply (slice_head sv start p _ (eq_sym J)). }
    assert (IH' : map (text sv)
                    (filter kept (layout (size token) (start + size p + size token) ps))
                  = filter (fun p => negb (size p =? 0)) ps).
    { destruct ps as [|p' ps]; [reflexivity|].
      apply IH; [pose proof (size_nonneg p); pose proof (size_nonneg token); lia|].
      symmetry; apply (skipn_past sv start p token); [lia | now symmetry]. }
    pose proof (size_nonneg p).
    destruct (0 <? size p) eqn:L.
    - apply Z.ltb_lt in L.
      replace (size p =? 0) with false by (symmetry; apply Z.eqb_neq; lia).
      cbn [negb map]; now rewrite Tp, IH'.
    - apply Z.ltb_ge in L.
      replace (size p =? 0) with true by (symmetry; apply Z.eqb_eq; lia).
      exact IH'. }
  apply G; [lia | now rewrite join_weave, W].
Qed.

Lemma split_ignore_is_keep_filtered_witness :
  let sv := str "a,b,,c" in
  let token := str "," in
  (token <> [] /\ size sv < npos /\ (length sv < 7)%nat)
  /\ exists views,
       split 7 sv token true = Done views
       /\ split 7 sv token false = Done (filter kept views)
       /\ split_copy 7 sv token false
          = Done (filter (fun p => negb (empty p)) (map (text sv) views)).
Proof.
  intros sv token; split.
  - split; [discriminate | split; [reflexivity | simpl; lia]].
  - apply (split_ignore_is_keep_filtered sv token 7);
      [discriminate | reflexivity | simpl; lia].
Defined.

(** X7.  For a non-empty token no part returned by [split_copy], under
    either policy, contains the token. *)
Theorem split_parts_without_token (sv token : list byte)
    (keep_empty_parts : bool) (fuel : nat) :
  token <> [] -> size sv < npos -> (length sv < fuel)%nat ->
  exists parts,
    split_copy fuel sv token keep_empty_parts = Done parts
    /\ Forall (fun p => ~ occurs_in token p) parts.
Proof.
  intros Ht Hs Hf; destruct (pieces_total token Ht sv) as (qs & last & P).
  destruct (pieces_clean token Ht _ _ _ P) as [C1 C2].
  assert (C : Forall (fun p => ~ occurs_in token p) (qs ++ [last]))
    by (apply Forall_app; split; [exact C1 | now constructor]).
  assert (E : map (text sv) (layout (size token) 0 (qs ++ [last])) = qs ++ [last])
    by (apply text_layout; [lia | now rewrite (pieces_weave _ _ _ _ P)]).
  destruct keep_empty_parts.
  - exists (qs ++ [last]); split; [now apply split_copy_keep_pieces | exact C].
  - eexists; split.
    + unfold split_copy.
      apply (split_ignore_empty_pieces sv token Ht Hs qs last fuel P Hf).
    + apply (Forall_map_filter _ (text sv)); now rewrite E.
Qed.

Lemma split_parts_without_token_witness :
  let sv := str "a--b-c" in
  let token := str "--" in
  (token <> [] /\ size sv < npos /\ (length sv < 7)%nat)
  /\ exists parts,
       split_copy 7 sv token true = Done parts
       /\ Forall (fun p => ~ occurs_in token p) parts.
Proof.
  intros sv token; split.
  - split; [discriminate | split; [reflexivity | simpl; lia]].
  - apply (split_parts_without_token sv token true 7);
      [discriminate | reflexivity | simpl; lia].
Defined.

(** A loop whose condition and body cannot raise from a state of the
    invariant never raises. *)
Lemma while_no_raise {St : Type} (Inv : St -> Prop) cond body :
  (forall s, Inv s ->
     exists c s1, cond s = Done (c, s1)
       /\ (c = true -> exists s2, body s1 = Done s2 /\ Inv s2)) ->
  forall fuel s e, Inv s -> while fuel cond body s <> Raise e.
Proof.
  intros Hs; induction fuel as [|fuel IH]; intros s e Hi; simpl; [discriminate|].
  destruct (Hs s Hi) as (c & s1 & -> & Hb); cbn [bind].
  destruct c; [|discriminate].
  destruct (Hb eq_refl) as (s2 & -> & Hi2); cbn [bind]; now apply IH.
Qed.

Section SplitSafety.
Variables sv token : list byte.

Lemma substr_inside pos n :
  0 <= pos <= size sv -> 0 <= n ->
  exists v, substr sv pos n = Done v /\ inside sv v.
Proof.
  intros Hp Hn; rewrite substr_ok by exact Hp; eexists; split; [reflexivity|].
  simpl; lia.
Qed.

Lemma keep_step_inv s :
  split_inv sv token s -> detail.found s = true ->
  exists s2, detail.keep_step sv token s = Done s2 /\ split_inv sv token s2.
Proof.
  destruct s as [[start i] parts]; intros (Hs & Hi & Hp) Hf.
  unfold detail.found in Hf; apply negb_true_iff, Z.eqb_neq in Hf.
  destruct (find_inv sv token start) as (k & F & E & B); [lia | congruence|].
  unfold detail.keep_step.
  destruct (substr_inside start (wrap (i - start)) Hs) as (v & -> & Iv);
    [apply wrap_range|]; cbn [bind].
  pose proof (size_nonneg token); pose proof (wrap_le (i + size token)).
  eexists; split; [reflexivity|]; repeat split; try lia.
  apply Forall_app; split; [exact Hp | now constructor].
Qed.

Lemma ignore_step_inv s :
  split_inv sv token s -> detail.found s = true ->
  exists s2, detail.ignore_step sv token s = Done s2 /\ split_inv sv token s2.
Proof.
  destruct s as [[start i] parts]; intros (Hs & Hi & Hp) Hf.
  unfold detail.found in Hf; apply negb_true_iff, Z.eqb_neq in Hf.
  destruct (find_inv sv token start) as (k & F & E & B); [lia | congruence|].
  unfold detail.ignore_step.
  pose proof (size_nonneg token); pose proof (wrap_le (i + size token)).
  destruct (0 <? wrap (i - start)).
  - destruct (substr_inside start (wrap (i - start)) Hs) as (v & -> & Iv);
      [apply wrap_range|]; cbn [bind].
    eexists; split; [reflexivity|]; repeat split; try lia.
    apply Forall_app; split; [exact Hp | now constructor].
  - cbn [bind]; eexists; split; [reflexivity|]; repeat split; try lia; exact Hp.
Qed.

Lemma split_inv_start : split_inv sv token (0, find sv token 0, []).
Proof. pose proof (size_nonneg sv); repeat split; try lia; constructor. Qed.
End SplitSafety.

(** X8.  For every subject, every token and every amount of fuel, no
    [substr] call of [split] is out of range ([std::out_of_range] is never
    thrown, no access leaves the subject), and every view [split] returns
    lies inside the subject.  Nothing is said here of a call that does not
    return. *)
Theorem split_views_inside (sv token : list byte) (keep_empty_parts : bool)
    (fuel : nat) :
  (forall e, split fuel sv token keep_empty_parts <> Raise e)
  /\ (forall views,
        split fuel sv token keep_empty_parts = Done views ->
        Forall (inside sv) views).
Proof.
  assert (Hnpos : 0 <= npos) by (unfold npos, modulus; lia).
  unfold split, detail.split_keep_empty, detail.split_ignore_empty.
  destruct keep_empty_parts.
  - destruct (while fuel (when detail.found) (detail.keep_step sv token)
                (0, find sv token 0, [])) as [[[start i] parts]| |] eqn:W.
    + assert (Hi : split_inv sv token (start, i, parts)).
      { apply (while_partial (split_inv sv token) (split_inv sv token)) with (4 := W).
        - intros s s1 s2 Hs; unfold when; intros [= Hf <-] B.
          destruct (keep_step_inv sv token s Hs Hf) as (s2' & B' & Hs2); congruence.
        - intros s s1 Hs; unfold when; now intros [= _ <-].
        - apply split_inv_start. }
      destruct Hi as (Hs & _ & Hp); cbn [bind].
      destruct (substr_inside sv start npos Hs Hnpos) as (v & -> & Iv); cbn [bind].
      split; [discriminate|]; intros views [= <-].
      apply Forall_app; split; [exact Hp | now constructor].
    + exfalso; revert W.
      apply (while_no_raise (split_inv sv token)); [|apply split_inv_start].
      intros s Hs; exists (detail.found s), s; split; [reflexivity|].
      now apply keep_step_inv.
    + cbn [bind]; split; [discriminate | discriminate].
  - destruct (while fuel (when detail.found) (detail.ignore_step sv token)
                (0, find sv token 0, [])) as [[[start i] parts]| |] eqn:W.
    + assert (Hi : split_inv sv token (start, i, parts)).
      { apply (while_partial (split_inv sv token) (split_inv sv token)) with (4 := W).
        - intros s s1 s2 Hs; unfold when; intros [= Hf <-] B.
          destruct (ignore_step_inv sv token s Hs Hf) as (s2' & B' & Hs2); congruence.
        - intros s s1 Hs; unfold when; now intros [= _ <-].
        - apply split_inv_start. }
      destruct Hi as (Hs & _ & Hp); cbn [bind].
      destruct (0 <? wrap (size sv - start)).
      * destruct (substr_inside sv start npos Hs Hnpos) as (v & -> & Iv); cbn [bind].
        split; [discriminate|]; intros views [= <-].
        apply Forall_app; split; [exact Hp | now constructor].
      * split; [discriminate|]; now intros views [= <-].
    + exfalso; revert W.
      apply (while_no_raise (split_inv sv token)); [|apply split_inv_start].
      intros s Hs; exists (detail.found s), s; split; [reflexivity|].
      now apply ignore_step_inv.
    + cbn [bind]; split; [discriminate | discriminate].
Qed.

Lemma split_views_inside_witness :
  split 7 (str "a,b,,c") (str ",") true = Done [View 0 1; View 2 1; View 4 0; View 5 1]
  /\ Forall (inside (str "a,b,,c")) [View 0 1; View 2 1; View 4 0; View 5 1].
Proof.
  split; [reflexivity|].
  apply (proj2 (split_views_inside (str "a,b,,c") (str ",") true 7)); reflexivity.
Defined.

Lemma slice_tail sv pos :
  0 <= pos <= size sv -> slice sv pos (size sv - pos) = skipn (Z.to_nat pos) sv.
Proof.
  intros Hp; unfold slice; apply firstn_all2.
  rewrite length_skipn; unfold size in *; lia.
Qed.

Lemma split_first_copy_found sv token k :
  size sv < npos -> first_occurrence token sv = Some k ->
  split_first_copy sv token
  = Done (firstn k sv, skipn (k + length token) sv).
Proof.
  intros Hs F; unfold split_first_copy.
  pose proof (first_occurrence_bound _ _ _ F) as B.
  pose proof (size_nonneg sv) as H0; pose proof modulus_eq as M.
  rewrite (find_some sv token 0 k) by (simpl; auto; lia).
  replace (0 + Z.of_nat k =? npos) with false
    by (symmetry; apply Z.eqb_neq; unfold size in *; lia).
  cbn [negb]; rewrite wrap_small by (unfold size in *; lia).
  rewrite !substr_ok by (unfold size in *; lia); cbn [bind text].
  rewrite Z.min_l, Z.min_r by (unfold size in *; lia).
  rewrite slice_tail by (unfold size in *; lia); unfold slice; simpl skipn.
  do 2 f_equal; f_equal; unfold size; lia.
Qed.

(** X9.  [split_first] cuts at the first occurrence of the token: when the
    token occurs in the subject, [split_first_copy] returns the text before
    the leftmost occurrence and the text after it, so that prefix, token and
    suffix make up the subject; when it does not occur, the whole subject
    and an empty second component ([{}] for the views). *)
Theorem split_first_cuts_at_first_match (sv token : list byte) :
  size sv < npos ->
  (occurs_in token sv ->
   exists a b,
     split_first_copy sv token = Done (a, b)
     /\ sv = a ++ token ++ b
     /\ (forall l r, sv = l ++ token ++ r -> (length a <= length l)%nat))
  /\ (~ occurs_in token sv ->
      split_first sv token = Done (View 0 (size sv), Null)
      /\ split_first_copy sv token = Done (sv, [])).
Proof.
  intros Hs; split.
  - intros O; destruct (occurs_first_occurrence _ _ O) as [k F].
    exists (firstn k sv), (skipn (k + length token) sv).
    split; [now apply split_first_copy_found|].
    split; [now apply first_occurrence_split|].
    intros l r E; pose proof (first_occurrence_least _ _ _ _ _ F E).
    rewrite length_firstn; lia.
  - intros N; assert (F : first_occurrence token sv = None).
    { destruct (first_occurrence token sv) as [k|] eqn:F; [|reflexivity].
      exfalso; apply N; exists (firstn k sv), (skipn (k + length token) sv).
    now apply first_occurrence_split. }
    unfold split_first, split_first_copy; rewrite (find_none sv token 0 F).
    now rewrite Z.eqb_refl.
Qed.

Lemma split_first_cuts_at_first_match_witness :
  let sv := str "key=value=1" in
  (size sv < npos /\ occurs_in (str "=") sv)
  /\ exists a b,
       split_first_copy sv (str "=") = Done (a, b)
       /\ sv = a ++ str "=" ++ b
       /\ (forall l r, sv = l ++ str "=" ++ r -> (length a <= length l)%nat).
Proof.
  intros sv.
  assert (O : occurs_in (str "=") sv) by (exists (str "key"), (str "value=1"); reflexivity).
  split; [split; [reflexivity | exact O]|].
  exact (proj1 (split_first_cuts_at_first_match sv (str "=") eq_refl) O).
Defined.

(** X10.  For a non-empty token occurring in the subject, [split_copy] with
    the keep-empty policy is [split_first_copy] repeated: its first part is
    the prefix [split_first_copy] returns, and the remaining parts are the
    parts of the suffix. *)
Theorem split_unrolls_through_split_first (sv token : list byte) (fuel : nat) :
  token <> [] -> size sv < npos -> (length sv < fuel)%nat ->
  occurs_in token sv ->
  exists a b rest,
    split_first_copy sv token = Done (a, b)
    /\ split_copy fuel b token true = Done rest
    /\ split_copy fuel sv token true = Done (a :: rest).
Proof.
  intros Ht Hs Hf O; destruct (occurs_first_occurrence _ _ O) as [k F].
  destruct (pieces_total token Ht (skipn (k + length token) sv)) as (qs & last & P).
  exists (firstn k sv), (skipn (k + length token) sv), (qs ++ [last]).
  split; [now apply split_first_copy_found|].
  assert (Lb : (length (skipn (k + length token) sv) <= length sv)%nat)
    by (rewrite length_skipn; lia).
  split.
  - apply split_copy_keep_pieces; auto; unfold size in *; lia.
  - apply (split_copy_keep_pieces sv token (firstn k sv :: qs) last); auto.
    now apply pieces_more.
Qed.

Lemma split_unrolls_through_split_first_witness :
  let sv := str "a,b,,c" in
  let token := str "," in
  (token <> [] /\ size sv < npos /\ (length sv < 7)%nat /\ occurs_in token sv)
  /\ exists a b rest,
       split_first_copy sv token = Done (a, b)
       /\ split_copy 7 b token true = Done rest
       /\ split_copy 7 sv token true = Done (a :: rest).
Proof.
  intros sv token.
  assert (O : occurs_in token sv) by (exists (str "a"), (str "b,,c"); reflexivity).
  split; [split; [discriminate | split; [reflexivity | split; [simpl; lia | exact O]]]|].
  apply (split_unrolls_through_split_first sv token 7);
    [discriminate | reflexivity | simpl; lia | exact O].
Defined.

(** X11.  [replace(S, T, R)] is [split_copy(S, T, true)] joined with [R]:
    for a non-empty search token, with the subject and the output of
    representable size, the string [replace] builds in its buffer is the
    parts of the subject with [R] between neighbours. *)
Theorem replace_is_split_then_join (sv search_token replace_token : list byte)
    (fuel : nat) :
  let n := Z.of_nat (count_nonoverlapping_occurrences sv search_token) in
  search_token <> [] -> size sv < npos ->
  size sv - n * size search_token + n * size replace_token < modulus ->
  (length sv < fuel)%nat ->
  exists parts,
    split_copy fuel sv search_token true = Done parts
    /\ replace fuel sv search_token replace_token = Done (join replace_token parts).
Proof.
  intros n Ht Hs Hlen Hf; subst n.
  destruct (pieces_total search_token Ht sv) as (qs & last & P).
  pose proof (replace_output_size search_token replace_token sv qs last Ht P) as E.
  cbv zeta in E; exists (qs ++ [last]); split.
  - now apply split_copy_keep_pieces.
  - rewrite join_weave; apply replace_pieces; auto; now rewrite E.
Qed.

Lemma replace_is_split_then_join_witness :
  let sv := str "abcabc" in
  let search_token := str "b" in
  let replace_token := str "XY" in
  (search_token <> [] /\ size sv < npos /\ 6 - 2 * 1 + 2 * 2 < modulus
   /\ (length sv < 7)%nat)
  /\ exists parts,
       split_copy 7 sv search_token true = Done parts
       /\ replace 7 sv search_token replace_token = Done (join replace_token parts).
Proof.
  intros sv search_token replace_token; split.
  - split; [discriminate | split; [reflexivity | split; [reflexivity | simpl; lia]]].
  - apply (replace_is_split_then_join sv search_token replace_token 7);
      [discriminate | reflexivity | reflexivity | simpl; lia].
Defined.

(** X12.  When a non-empty token does not occur in the subject, [replace]
    returns the subject, [split] with the keep-empty policy returns the one
    view of the whole subject, and with the ignore-empty policy that view or,
    for the empty subject, nothing. *)
Theorem no_match_leaves_subject_whole (sv token replace_token : list byte)
    (fuel : nat) :
  token <> [] -> ~ occurs_in token sv -> size sv < npos -> (length sv < fuel)%nat ->
  replace fuel sv token replace_token = Done sv
  /\ split fuel sv token true = Done [View 0 (size sv)]
  /\ split fuel sv token false
     = Done (if empty sv then [] else [View 0 (size sv)]).
Proof.
  intros Ht N Hs Hf.
  assert (F : first_occurrence token sv = None).
  { destruct (first_occurrence token sv) as [k|] eqn:F; [|reflexivity].
    exfalso; apply N; exists (firstn k sv), (skipn (k + length token) sv).
    now apply first_occurrence_split. }
  pose proof (pieces_tail token sv F) as P.
  assert (Ek : forall vs : list view, map (emplace sv) vs = vs)
    by (intros vs; unfold emplace, Part_string_view; apply map_id).
  split; [|split].
  - rewrite (replace_pieces sv token replace_token Ht Hs [] sv fuel P Hf);
      [reflexivity | simpl; pose proof modulus_eq; lia].
  - unfold split.
    now rewrite (split_keep_empty_pieces sv token Ht Hs [] sv fuel P Hf), Ek.
  - unfold split.
    rewrite (split_ignore_empty_pieces sv token Ht Hs [] sv fuel P Hf), Ek.
    cbn [app layout filter kept]; unfold empty.
    pose proof (size_nonneg sv).
    destruct (size sv =? 0) eqn:Z0.
    + apply Z.eqb_eq in Z0; now rewrite Z0.
    + apply Z.eqb_neq in Z0.
      now replace (0 <? size sv) with true by (symmetry; apply Z.ltb_lt; lia).
Qed.

Lemma no_match_leaves_subject_whole_witness :
  let sv := str "abc" in
  let token := str "x" in
  (token <> [] /\ ~ occurs_in token sv /\ size sv < npos /\ (length sv < 4)%nat)
  /\ replace 4 sv token (str "Y") = Done sv
  /\ split 4 sv token true = Done [View 0 (size sv)]
  /\ split 4 sv token false = Done (if empty sv then [] else [View 0 (size sv)]).
Proof.
  intros sv token.
  assert (N : ~ occurs_in token sv) by now apply first_occurrence_none.
  split; [split; [discriminate | split; [exact N | split; [reflexivity | simpl; lia]]]|].
  apply (no_match_leaves_subject_whole sv token (str "Y") 4);
    [discriminate | exact N | reflexivity | simpl; lia].
Defined.

(** ** The chunker: round trip and safety *)

Lemma firstn_plus {A} (a b : nat) (l : list A) :
  firstn a l ++ firstn b (skipn a l) = firstn (a + b) l.
Proof.
  revert l; induction a as [|a IH]; intros l; simpl; [reflexivity|].
  destruct l; simpl; [now rewrite firstn_nil | now rewrite IH].
Qed.

Lemma text_chunk sv width k :
  0 < width -> Z.of_nat k * width <= size sv ->
  text sv (chunk_at width width (size sv) k)
  = firstn (Z.to_nat width) (skipn (Z.to_nat (Z.of_nat k * width)) sv).
Proof.
  intros Hw Hk; unfold chunk_at, text, slice.
  assert (Hl : length (skipn (Z.to_nat (Z.of_nat k * width)) sv)
               = Z.to_nat (size sv - Z.of_nat k * width))
    by (rewrite length_skipn; unfold size in *; lia).
  destruct (Z.le_gt_cases width (size sv - Z.of_nat k * width)) as [L|L].
  - now rewrite Z.min_l by lia.
  - rewrite Z.min_r by lia; rewrite !firstn_all2; auto; lia.
Qed.

Lemma concat_chunks sv width m :
  0 < width ->
  (forall j, (j < m)%nat -> Z.of_nat j * width < size sv) ->
  concat (map (text sv) (map (chunk_at width width (size sv)) (seq 0 m)))
  = firstn (Z.to_nat (Z.of_nat m * width)) sv.
Proof.
  intros Hw; induction m as [|m IH]; intros Hj; [reflexivity|].
  rewrite seq_S, !map_app, concat_app, IH by (intros; apply Hj; lia).
  cbn [Nat.add map concat]; rewrite app_nil_r.
  assert (Hm : Z.of_nat m * width < size sv) by (apply Hj; lia).
  rewrite text_chunk, firstn_plus by lia; f_equal; nia.
Qed.

(** X13.  With [skip = 0] the chunks tile the subject: for a non-zero
    [character_count] (and a subject of at most [2^63] bytes) the bytes of
    the views the chunker returns, concatenated in order, are the subject. *)
Theorem chunks_tile_the_subject (sv : list byte) (character_count : Z)
    (fuel : nat) :
  0 < character_count < modulus -> 2 * size sv <= modulus ->
  (length sv < fuel)%nat ->
  exists views,
    ascii.split fuel sv character_count 0 = Done views
    /\ concat (map (text sv) views) = sv.
Proof.
  intros [Hc Hm] Hs Hf.
  destruct (chunker_chunks sv character_count 0 character_count)
    with (fuel := fuel) as (n & E & Hend & Hin & _); try lia.
  eexists; split; [exact E|].
  rewrite concat_chunks by (auto; lia).
  apply firstn_all2; unfold size in *; lia.
Qed.

Lemma chunks_tile_the_subject_witness :
  let sv := str "abcdef12" in
  (0 < 3 < modulus /\ 2 * size sv <= modulus /\ (length sv < 9)%nat)
  /\ exists views,
       ascii.split 9 sv 3 0 = Done views /\ concat (map (text sv) views) = sv.
Proof.
  intros sv; split.
  - split; [split; reflexivity | split; [discriminate | simpl; lia]].
  - apply (chunks_tile_the_subject sv 3 9);
      [split; reflexivity | discriminate | simpl; lia].
Defined.

Lemma chunk_step_safe sv character_count skip i v :
  0 < character_count -> 0 <= i < size sv ->
  Forall (fun w => inside sv w /\ kept w = true) v ->
  exists i' v',
    ascii.chunk_step sv character_count skip (i, v) = Done (i', v')
    /\ 0 <= i' /\ Forall (fun w => inside sv w /\ kept w = true) v'.
Proof.
  intros Hc Hi Hv; unfold ascii.chunk_step.
  rewrite substr_ok by lia; cbn [bind]; eexists _, _; split; [reflexivity|].
  split; [apply wrap_range|].
  apply Forall_app; split; [exact Hv|]; constructor; [|constructor].
  split; [simpl; lia | simpl; apply Z.ltb_lt; lia].
Qed.

(** X14.  For every subject, every [character_count] and [skip] of type
    [size_t] and every amount of fuel, wrap-around included, no [substr]
    call of the chunker is out of range ([std::out_of_range] is never
    thrown), and every view it returns lies inside the subject and is not
    empty.  Nothing is said here of a call that does not return. *)
Theorem chunks_inside_and_nonempty (sv : list byte) (character_count skip : Z)
    (fuel : nat) :
  0 <= character_count ->
  (forall e, ascii.split fuel sv character_count skip <> Raise e)
  /\ (forall views,
        ascii.split fuel sv character_count skip = Done views ->
        Forall (fun w => inside sv w /\ kept w = true) views).
Proof.
  intros Hc; unfold ascii.split.
  destruct (character_count =? 0) eqn:Z0.
  { split; [discriminate | intros views [= <-]; constructor]. }
  apply Z.eqb_neq in Z0.
  pose (Inv := fun st : Z * list view =>
                 0 <= fst st /\ Forall (fun w => inside sv w /\ kept w = true) (snd st)).
  assert (I0 : Inv (0, [])) by (split; [simpl; lia | constructor]).
  assert (Step : forall s, Inv s -> (fst s <? size sv) = true ->
                 exists s2, ascii.chunk_step sv character_count skip s = Done s2
                            /\ Inv s2).
  { intros [i v] [Hi Hv] C; apply Z.ltb_lt in C; simpl in *.
    destruct (chunk_step_safe sv character_count skip i v) as (i' & v' & E & Hi' & Hv');
      auto; try lia.
    exists (i', v'); now repeat split. }
  destruct (while fuel _ _ _) as [[i v]| |] eqn:W; cbn [bind].
  - split; [discriminate|]; intros views [= <-].
    apply (while_partial Inv (fun st => Forall _ (snd st))) with (s' := (i, v)) (4 := W);
      [| |exact I0].
    + intros [a b] s1 s2 Hs; unfold when; intros [= C <-] B.
      destruct (Step (a, b) Hs C) as (s2' & B' & Hs2); congruence.
    + intros [a b] s1 [_ Hs]; unfold when; now intros [= _ <-].
  - exfalso; revert W; apply (while_no_raise Inv); [|exact I0].
    intros [a b] Hs; exists (a <? size sv), (a, b); split; [reflexivity|].
    intros C; now apply (Step (a, b)).
  - split; discriminate.
Qed.

Lemma chunks_inside_and_nonempty_witness :
  (0 <= npos
   /\ ascii.split 4 (str "abc") npos 2 = Done [View 0 3; View 1 2; View 2 1])
  /\ Forall (fun w => inside (str "abc") w /\ kept w = true)
       [View 0 3; View 1 2; View 2 1].
Proof.
  split; [split; [discriminate | reflexivity]|].
  apply (proj2 (chunks_inside_and_nonempty (str "abc") npos 2 4 ltac:(discriminate)));
    reflexivity.
Defined.

(** ** The pre-scan of the replacer *)

Lemma marks_are_matches sv token last qs :
  forall start,
    0 <= start <= size sv ->
    weave token qs last = skipn (Z.to_nat start) sv ->
    apart (size token) start (marks (size token) start qs)
    /\ Forall (fun p => slice sv p (size token) = token /\ p + size token <= size sv)
         (marks (size token) start qs).
Proof.
  induction qs as [|q qs IH]; intros start Hs W; [split; constructor|].
  cbn [weave marks apart] in *.
  pose proof (size_nonneg q) as Hq; pose proof (size_nonneg token) as Ht.
  pose proof (size_nonneg (weave token qs last)) as Hw.
  assert (Hlen : size sv - start = size q + size token + size (weave token qs last)).
  { rewrite <- size_skipn, <- W, !size_app by lia; lia. }
  assert (Hp : skipn (Z.to_nat (start + size q)) sv = token ++ weave token qs last).
  { rewrite <- (skipn_past sv start q [] (token ++ weave token qs last)); auto; try lia.
    change (size []) with 0; now rewrite Z.add_0_r. }
  assert (Hn : skipn (Z.to_nat (start + size q + size token)) sv = weave token qs last).
  { apply (skipn_past sv start q token); [lia | now symmetry]. }
  destruct (IH (start + size q + size token)) as [A F]; [lia | now symmetry|].
  split; [split; [lia | exact A]|].
  constructor; [|exact F]; split; [|lia].
  apply (slice_head sv (start + size q) token _ Hp).
Qed.

(** X15.  For a non-empty search token the positions collected by the
    pre-scan of [replace] are starts of occurrences of the token inside the
    subject, in increasing order and at least [len(T)] apart, and there are
    [count_nonoverlapping_occurrences] of them. *)
Theorem replace_scan_positions (sv search_token : list byte) (fuel : nat) :
  search_token <> [] -> size sv < npos -> (length sv < fuel)%nat ->
  exists positions,
    replace_scan fuel sv search_token = Done positions
    /\ apart (size search_token) 0 positions
    /\ Forall (fun p => slice sv p (size search_token) = search_token
                        /\ p + size search_token <= size sv) positions
    /\ length positions = count_nonoverlapping_occurrences sv search_token.
Proof.
  intros Ht Hs Hf; destruct (pieces_total search_token Ht sv) as (qs & last & P).
  exists (marks (size search_token) 0 qs).
  split; [now apply (replace_scan_pieces sv search_token Ht Hs qs last)|].
  pose proof (size_nonneg sv) as H0.
  destruct (marks_are_matches sv search_token last qs 0) as [A F];
    [lia | now rewrite (pieces_weave _ _ _ _ P)|].
  split; [exact A|]; split; [exact F|].
  rewrite length_marks; now apply (pieces_count search_token Ht sv qs last).
Qed.

Lemma replace_scan_positions_witness :
  let sv := str "abababa" in
  let search_token := str "aba" in
  (search_token <> [] /\ size sv < npos /\ (length sv < 8)%nat)
  /\ exists positions,
       replace_scan 8 sv search_token = Done positions
       /\ apart (size search_token) 0 positions
       /\ Forall (fun p => slice sv p (size search_token) = search_token
                           /\ p + size search_token <= size sv) positions
       /\ length positions = count_nonoverlapping_occurrences sv search_token.
Proof.
  intros sv search_token; split.
  - split; [discriminate | split; [reflexivity | simpl; lia]].
  - apply (replace_scan_positions sv search_token 8);
      [discriminate | reflexivity | simpl; lia].
Defined.
